(** * unicode_range_finder: the range-query engine of [main.go]

    A shallow embedding of the query path of the tool: the matcher compiler
    [parseMatchers], the range scanner [query], the renderers [Range.String]
    and [Ranges.String], and the layout printer [printRanges] / [printLine],
    together with the properties of them that the specification states.

    Go's [string] is a byte sequence: it is [String.string] here, one [ascii]
    per byte.  [rune] is a signed 32-bit integer and [int] a signed 64-bit one:
    both are [Z], conversions to [rune] wrap explicitly ([to_rune]).  Standard
    output is a trace of [Event]s.  A Go panic is the [Panicked] outcome. *)

From Stdlib Require Import ZArith List Bool Lia Sorted.
From Stdlib Require Import Strings.Ascii Strings.String.
Import ListNotations.

Open Scope string_scope.
Open Scope list_scope.
Open Scope Z_scope.

(* ------------------------------------------------------------------ *)
(** ** Machine integers *)

(** [rune(x)]: conversion of an integer to [int32], two's complement. *)
Definition to_rune (x : Z) : Z := (x + 2 ^ 31) mod 2 ^ 32 - 2 ^ 31.

Definition is_rune (x : Z) : Prop := - 2 ^ 31 <= x < 2 ^ 31.

(** Go's [len] of a string, as an [int]. *)
Definition len (s : string) : Z := Z.of_nat (String.length s).

(* ------------------------------------------------------------------ *)
(** ** Outcomes and output *)

Inductive ErrKind := ErrSyntax | ErrRange.

(** [*strconv.NumError]: the failing input and the kind of failure. *)
Record NumError := { Num : string; Err : ErrKind }.

Inductive GoPanic :=
| PanicNumError (e : NumError)
| PanicIndexOutOfRange.

Inductive Outcome (A : Type) :=
| Returned (a : A)
| Panicked (p : GoPanic).
Arguments Returned {A} a.
Arguments Panicked {A} p.

(** What the program writes: text, or the whole usage help of [printUsage]
    (whose option list comes from the [flag] package). *)
Inductive Event :=
| Text (s : string)
| UsageHelp.

(* ------------------------------------------------------------------ *)
(** ** Data model *)

Record Codepoint := {
  Codepoint_ : Z;          (* field Codepoint, a rune *)
  MajorCategory : ascii;
  MinorCategory : ascii
}.

Definition CodepointMatcher := Codepoint -> bool.

Record Range := { Begin : Z; End : Z }.

Definition Ranges := list Range.

(* ------------------------------------------------------------------ *)
(** ** The range scanner: [query] *)

Module Scanner.

Record State := {
  inRange : bool;
  startRange : Z;
  ranges : Ranges
}.

Definition init : State :=
  {| inRange := false; startRange := 0; ranges := [] |}.

(** One iteration of [for i, cp := range allCodepoints]. *)
Definition step (inclusiveMatcher exclusiveMatcher : CodepointMatcher)
    (i : nat) (cp : Codepoint) (st : State) : State :=
  if inclusiveMatcher cp && negb (exclusiveMatcher cp) then
    {| inRange := true;
       startRange := if inRange st then startRange st
                     else to_rune (Z.of_nat i);
       ranges := ranges st |}
  else
    {| inRange := false;
       startRange := startRange st;
       ranges := if inRange st
                 then ranges st ++
                      [{| Begin := startRange st;
                          End := to_rune (Z.of_nat i - 1) |}]
                 else ranges st |}.

Fixpoint loop (inclusiveMatcher exclusiveMatcher : CodepointMatcher)
    (i : nat) (tbl : list Codepoint) (st : State) : State :=
  match tbl with
  | [] => st
  | cp :: tl =>
      loop inclusiveMatcher exclusiveMatcher (S i) tl
           (step inclusiveMatcher exclusiveMatcher i cp st)
  end.

End Scanner.

(** [allCodepoints[len(allCodepoints)-1]]: panics on an empty table. *)
Definition last_entry (allCodepoints : list Codepoint) : option Codepoint :=
  nth_error allCodepoints (List.length allCodepoints - 1)%nat.

(** [query], with the table [allCodepoints] (the generated asset, a global in
    the source) as an explicit argument. *)
Definition query (allCodepoints : list Codepoint)
    (inclusiveMatcher exclusiveMatcher : CodepointMatcher) : Outcome Ranges :=
  let st := Scanner.loop inclusiveMatcher exclusiveMatcher 0 allCodepoints
                         Scanner.init in
  if Scanner.inRange st then
    match last_entry allCodepoints with
    | Some cp =>
        Returned (Scanner.ranges st ++
                  [{| Begin := Scanner.startRange st;
                      End := Codepoint_ cp |}])
    | None => Panicked PanicIndexOutOfRange
    end
  else Returned (Scanner.ranges st).

(** The two closures [main] hands to [query]: true as soon as one matcher of
    the list is. *)
Fixpoint anyMatch (matchers : list CodepointMatcher) (cp : Codepoint) : bool :=
  match matchers with
  | [] => false
  | matcher :: rest => if matcher cp then true else anyMatch rest cp
  end.

(** The exclusive matchers [main] builds from the bounds of [-range]
    ([lowCP], [highCP] are [uint64]; the defaults are 0 and 0x10ffff). *)
Definition exclusiveMatchers (lowCP highCP : Z) : list CodepointMatcher :=
  if (lowCP >? 0) || (highCP <? 0x10ffff) then
    [fun cp => (Codepoint_ cp <? to_rune lowCP)
               || (Codepoint_ cp >? to_rune highCP)]
  else [].

(* ------------------------------------------------------------------ *)
(** ** Rendering: [fmt]'s [%X], [Range.String], [Ranges.String] *)

(** The digit table of [fmt] for the upper-case verbs. *)
Definition udigits : string := "0123456789ABCDEF".

Definition digit (d : Z) : ascii :=
  match String.get (Z.to_nat d) udigits with
  | Some c => c
  | None => "?"%char
  end.

(** The base-16 loop of [fmt]'s integer formatter, which fills its buffer from
    the end: [for u >= 16 { buf[i] = digits[u&0xF]; i--; u >>= 4 }] and then
    [buf[i] = digits[u]]. *)
Fixpoint fmtHex (fuel : nat) (u : Z) (buf : string) : string :=
  match fuel with
  | O => String (digit u) buf
  | S fuel' =>
      if u >=? 16
      then fmtHex fuel' (Z.shiftr u 4) (String (digit (Z.land u 15)) buf)
      else String (digit u) buf
  end.

(** [fmt.Sprintf("%X", v)] for a signed integer [v]: the magnitude in upper
    case, no padding, a minus sign before it when [v] is negative.  The loop
    runs once per hexadecimal digit after the first, at most
    [Z.log2 u / 4] times. *)
Definition fmt_X (v : Z) : string :=
  let negative := v <? 0 in
  let u := if negative then - v else v in
  let buf := fmtHex (Z.to_nat (Z.log2 u)) u EmptyString in
  if negative then String "-"%char buf else buf.

(** [func (_this *Range) String() string] *)
Definition Range_String (_this : Range) : string :=
  if Begin _this =? End _this then ("#x" ++ fmt_X (Begin _this))%string
  else ("[#x" ++ fmt_X (Begin _this) ++ "-#x" ++ fmt_X (End _this) ++ "]")%string.

(** The loop of [Ranges.String] over its [strings.Builder]. *)
Fixpoint Ranges_String_loop (i : Z) (rs : Ranges) (sb : string) : string :=
  match rs with
  | [] => sb
  | r :: rest =>
      let sb := if i >? 0 then (sb ++ " | ")%string else sb in
      Ranges_String_loop (i + 1) rest (sb ++ Range_String r)%string
  end.

(** [func (_this Ranges) String() string] *)
Definition Ranges_String (_this : Ranges) : string :=
  Ranges_String_loop 0 _this EmptyString.

(* ------------------------------------------------------------------ *)
(** ** The layout printer: [printLine], [printRanges] *)

Definition newline : string := String "010"%char EmptyString.

(** [strings.Repeat(" ", n)] *)
Definition Repeat_space (n : Z) : string :=
  string_of_list_ascii (repeat " "%char (Z.to_nat n)).

(** The loop of [printLine]: [n] is [len(ranges)] of the whole slice handed to
    [printLine], [i] the index of the head of [rs] in it, [col] the running
    column, [out] what was printed so far and [entriesUsed] the count.  (The
    column is an [int]; it is bounded by the length of the text, so it does
    not wrap.) *)
Fixpoint printLine_loop (n highCol : Z) (i : Z) (rs : list Range)
    (col : Z) (out : string) (entriesUsed : nat) : nat * string :=
  match rs with
  | [] => (entriesUsed, out)
  | r :: rest =>
      let sb := EmptyString in
      let sb := if i >? 0 then (sb ++ " ")%string else sb in
      let sb := (sb ++ Range_String r)%string in
      let sb := if i <? n - 1 then (sb ++ " |")%string else sb in
      let str := sb in
      let col := col + len str in
      if col >? highCol then (entriesUsed, out)
      else printLine_loop n highCol (i + 1) rest col (out ++ str)%string
                          (S entriesUsed)
  end.

(** [printLine]: the count of entries used and the text printed, the final
    [fmt.Println] included. *)
Definition printLine (ranges : list Range) (lowCol highCol : Z)
    : nat * string :=
  let '(entriesUsed, out) :=
    printLine_loop (Z.of_nat (List.length ranges)) highCol 0 ranges lowCol EmptyString O in
  (entriesUsed, (out ++ newline)%string).

(** The loop [for len(ranges) > 0] of [printRanges]; [None] when the fuel
    runs out before the slice is empty. *)
Fixpoint printRanges_loop (fuel : nat) (highCol : Z) (ranges : list Range)
    (leadup : string) (out : string) : option string :=
  match ranges with
  | [] => Some out
  | _ :: _ =>
      match fuel with
      | O => None
      | S fuel' =>
          let out := (out ++ leadup)%string in
          let '(entriesUsed, line) := printLine ranges (len leadup) highCol in
          printRanges_loop fuel' highCol (skipn entriesUsed ranges)
                           (Repeat_space (len leadup)) (out ++ line)%string
      end
  end.

(** [printRanges]: the text written to standard output. *)
Definition printRanges (fuel : nat) (ranges : list Range) (leadup : string)
    (highCol : Z) : option string :=
  if highCol <=? 0 then
    Some (leadup ++ Ranges_String ranges ++ newline)%string
  else printRanges_loop fuel highCol ranges leadup EmptyString.

(* ------------------------------------------------------------------ *)
(** ** Library functions the matcher compiler calls *)

Definition byte (c : ascii) : Z := Z.of_N (N_of_ascii c).

(** [strings.Split(s, sep)] for a one-byte separator: the pieces between the
    occurrences of [sep], one more than there are occurrences. *)
Fixpoint Split (s : string) (sep : ascii) : list string :=
  match s with
  | EmptyString => [EmptyString]
  | String c rest =>
      if Ascii.eqb c sep then EmptyString :: Split rest sep
      else match Split rest sep with
           | piece :: pieces => String c piece :: pieces
           | [] => [String c EmptyString]
           end
  end.

Module strconv.

Definition syntaxError (s0 : string) : NumError :=
  {| Num := s0; Err := ErrSyntax |}.
Definition rangeError (s0 : string) : NumError :=
  {| Num := s0; Err := ErrRange |}.

(** [lower(c)]: [c | ('x' - 'X')]. *)
Definition lower (c : Z) : Z := Z.lor c 32.

(** The digit loop of [strconv.ParseUint(s, 16, 32)] on the bytes still to
    read, with the accumulator [n] (a [uint64]). *)
Fixpoint ParseUint_loop (s0 s : string) (n : Z) : Z + NumError :=
  match s with
  | EmptyString => inl n
  | String ch rest =>
      let c := byte ch in
      let d :=
        if (48 <=? c) && (c <=? 57) then Some (c - 48)
        else if (97 <=? lower c) && (lower c <=? 122)
             then Some (lower c - 97 + 10)
             else None in
      match d with
      | None => inr (syntaxError s0)
      | Some d =>
          if d >=? 16 then inr (syntaxError s0)
          else if n >=? (2 ^ 64 - 1) / 16 + 1 then inr (rangeError s0)
          else
            let n := (n * 16) mod 2 ^ 64 in
            let n1 := (n + d) mod 2 ^ 64 in
            if (n1 <? n) || (n1 >? 2 ^ 32 - 1) then inr (rangeError s0)
            else ParseUint_loop s0 rest n1
      end
  end.

(** [strconv.ParseUint(s, 16, 32)] *)
Definition ParseUint (s : string) : Z + NumError :=
  match s with
  | EmptyString => inr (syntaxError s)
  | _ => ParseUint_loop s s 0
  end.

End strconv.

Module utf8.

Definition RuneError : Z := 0xFFFD.

(** The table [first]: information about the first byte of an encoding
    ([as] = 0xF0, [xx] = 0xF1, [s1] .. [s7]). *)
Definition first (b : Z) : Z :=
  if b <? 0x80 then 0xF0
  else if b <? 0xC2 then 0xF1
  else if b <? 0xE0 then 0x02
  else if b =? 0xE0 then 0x13
  else if b <? 0xED then 0x03
  else if b =? 0xED then 0x23
  else if b <? 0xF0 then 0x03
  else if b =? 0xF0 then 0x34
  else if b <? 0xF4 then 0x04
  else if b =? 0xF4 then 0x44
  else 0xF1.

(** [acceptRanges]: the bounds of the second byte. *)
Definition acceptRanges (k : Z) : Z * Z :=
  if k =? 1 then (0xA0, 0xBF)
  else if k =? 2 then (0x80, 0x9F)
  else if k =? 3 then (0x90, 0xBF)
  else if k =? 4 then (0x80, 0x8F)
  else (0x80, 0xBF).

Definition continuation (b : Z) : bool := (0x80 <=? b) && (b <=? 0xBF).

(** [utf8.DecodeRuneInString]: the rune and its width in bytes;
    [(RuneError, 0)] on the empty string, [(RuneError, 1)] on an invalid
    encoding. *)
Definition DecodeRuneInString (s : string) : Z * Z :=
  match s with
  | EmptyString => (RuneError, 0)
  | String c0 t0 =>
      let s0 := byte c0 in
      let x := first s0 in
      if x >=? 0xF0 then ((if Z.testbit x 0 then RuneError else s0), 1)
      else
        let sz := Z.land x 7 in
        let '(lo, hi) := acceptRanges (Z.shiftr x 4) in
        if len s <? sz then (RuneError, 1)
        else
          match t0 with
          | EmptyString => (RuneError, 1)
          | String c1 t1 =>
              let s1 := byte c1 in
              if (s1 <? lo) || (hi <? s1) then (RuneError, 1)
              else if sz <=? 2
              then (Z.lor (Z.shiftl (Z.land s0 0x1F) 6) (Z.land s1 0x3F), 2)
              else
                match t1 with
                | EmptyString => (RuneError, 1)
                | String c2 t2 =>
                    let s2 := byte c2 in
                    if negb (continuation s2) then (RuneError, 1)
                    else if sz <=? 3
                    then (Z.lor (Z.lor (Z.shiftl (Z.land s0 0x0F) 12)
                                       (Z.shiftl (Z.land s1 0x3F) 6))
                                (Z.land s2 0x3F), 3)
                    else
                      match t2 with
                      | EmptyString => (RuneError, 1)
                      | String c3 _ =>
                          let s3 := byte c3 in
                          if negb (continuation s3) then (RuneError, 1)
                          else
                            (Z.lor (Z.lor (Z.lor
                               (Z.shiftl (Z.land s0 0x07) 18)
                               (Z.shiftl (Z.land s1 0x3F) 12))
                               (Z.shiftl (Z.land s2 0x3F) 6))
                               (Z.land s3 0x3F), 4)
                      end
                end
          end
  end.

End utf8.

(* ------------------------------------------------------------------ *)
(** ** The matcher compiler: [parseMatchers] *)

(** What [parseMatchers] leaves behind: the text it printed and either the
    matchers it returns or the panic it raised. *)
Definition Compiled : Type := list Event * Outcome (list CodepointMatcher).

(** The two statements before each early [return]. *)
Definition unknownParam (matcher : string) : list Event :=
  [Text (matcher ++ ": Unknown query param")%string; UsageHelp].

(** The body of [for _, matcher := range strings.Split(matchers, " ")], on the
    terms still to read; [cpMatchers] is the named result, which the early
    [return]s hand back as it stands. *)
Fixpoint parseMatchers_loop (terms : list string)
    (cpMatchers : list CodepointMatcher) : Compiled :=
  match terms with
  | [] => ([], Returned cpMatchers)
  | matcher :: rest =>
      if len matcher =? 0 then parseMatchers_loop rest cpMatchers
      else
        match Split matcher "="%char with
        | [key; value] =>
            if String.eqb key "cat" then
              match value with
              | String majorCategory EmptyString =>
                  parseMatchers_loop rest
                    (cpMatchers ++
                     [fun cp => Ascii.eqb (MajorCategory cp) majorCategory])
              | String majorCategory (String minorCategory EmptyString) =>
                  parseMatchers_loop rest
                    (cpMatchers ++
                     [fun cp => Ascii.eqb (MajorCategory cp) majorCategory
                                && Ascii.eqb (MinorCategory cp) minorCategory])
              | _ => (unknownParam matcher, Returned cpMatchers)
              end
            else if String.eqb key "ch" then
              match Split value "-"%char with
              | [] | [_] =>
                  let code := fst (utf8.DecodeRuneInString value) in
                  parseMatchers_loop rest
                    (cpMatchers ++ [fun cp => Codepoint_ cp =? code])
              | lowHi0 :: lowHi1 :: _ =>
                  let low := fst (utf8.DecodeRuneInString lowHi0) in
                  let hi := fst (utf8.DecodeRuneInString lowHi1) in
                  parseMatchers_loop rest
                    (cpMatchers ++
                     [fun cp => (Codepoint_ cp >=? low)
                                && (Codepoint_ cp <=? hi)])
              end
            else if String.eqb key "cp" then
              match Split value "-"%char with
              | [] | [_] =>
                  match strconv.ParseUint value with
                  | inr err => ([], Panicked (PanicNumError err))
                  | inl code =>
                      parseMatchers_loop rest
                        (cpMatchers ++
                         [fun cp => Codepoint_ cp =? to_rune code])
                  end
              | lowHi0 :: lowHi1 :: _ =>
                  match strconv.ParseUint lowHi0 with
                  | inr err => ([], Panicked (PanicNumError err))
                  | inl lowCode =>
                      match strconv.ParseUint lowHi1 with
                      | inr err => ([], Panicked (PanicNumError err))
                      | inl hiCode =>
                          parseMatchers_loop rest
                            (cpMatchers ++
                             [fun cp => (Codepoint_ cp >=? to_rune lowCode)
                                        && (Codepoint_ cp <=? to_rune hiCode)])
                      end
                  end
              end
            else (unknownParam matcher, Returned cpMatchers)
        | _ => (unknownParam matcher, Returned cpMatchers)
        end
  end.

(** [func parseMatchers(matchers string) (cpMatchers []CodepointMatcher)] *)
Definition parseMatchers (matchers : string) : Compiled :=
  parseMatchers_loop (Split matchers " "%char) [].

(* ------------------------------------------------------------------ *)
(** ** The query path of [main] *)

(** The query string: the arguments joined by single spaces. *)
Fixpoint joinArgs (i : Z) (args : list string) (sb : string) : string :=
  match args with
  | [] => sb
  | arg :: rest =>
      let sb := if i >? 0 then (sb ++ " ")%string else sb in
      joinArgs (i + 1) rest (sb ++ arg)%string
  end.

(** A run of the program: what it wrote and how it ended. *)
Record Run := { stdout : list Event; ending : Outcome unit }.

(** [main] after its flags are parsed and [-unicode] is absent: [lowCP] and
    [highCP] are the bounds of [-range] (0 and 0x10ffff without it), [args]
    the positional arguments.  [None]: the printing loop is still running
    when the fuel is spent. *)
Definition main (allCodepoints : list Codepoint) (fuel : nat)
    (leadup : string) (highCol : Z) (lowCP highCP : Z) (args : list string)
    : option Run :=
  match args with
  | [] =>
      Some {| stdout := [Text "Must provide at least one query param";
                         UsageHelp];
              ending := Returned tt |}
  | _ :: _ =>
      let q := joinArgs 0 args EmptyString in
      let '(diagnostics, compiled) := parseMatchers q in
      match compiled with
      | Panicked p => Some {| stdout := diagnostics; ending := Panicked p |}
      | Returned inclusiveMatchers =>
          match query allCodepoints (anyMatch inclusiveMatchers)
                      (anyMatch (exclusiveMatchers lowCP highCP)) with
          | Panicked p =>
              Some {| stdout := diagnostics; ending := Panicked p |}
          | Returned ranges =>
              match printRanges fuel ranges leadup highCol with
              | None => None
              | Some text =>
                  Some {| stdout := diagnostics ++ [Text text];
                          ending := Returned tt |}
              end
          end
      end
  end.

(* ------------------------------------------------------------------ *)
(** ** Vocabulary of the properties *)

(** A Unicode scalar value. *)
Definition scalar (c : Z) : Prop := 0 <= c <= 0x10FFFF.

(** A codepoint table: records of scalar values in strictly ascending order
    (so without duplicates). *)
Definition ordered_table (tbl : list Codepoint) : Prop :=
  Forall (fun cp => scalar (Codepoint_ cp)) tbl /\
  StronglySorted (fun a b => Codepoint_ a < Codepoint_ b) tbl.

(** The unrestricted table: position [i] holds the record of scalar value
    [i]. *)
Definition unrestricted_table (tbl : list Codepoint) : Prop :=
  Forall (fun cp => scalar (Codepoint_ cp)) tbl /\
  forall i cp, nth_error tbl i = Some cp -> Codepoint_ cp = Z.of_nat i.

(** A record is matched: one inclusive matcher at least accepts it and no
    exclusive matcher does. *)
Definition matched (inclusive exclusive : list CodepointMatcher)
    (cp : Codepoint) : Prop :=
  (exists m, In m inclusive /\ m cp = true) /\
  (forall m, In m exclusive -> m cp = false).

(** A sequence of ranges covers a value. *)
Definition covers (rs : Ranges) (v : Z) : Prop :=
  exists r, In r rs /\ Begin r <= v <= End r.

(** The record the scanner tests: the condition of its [if]. *)
Definition selects (inclusiveMatcher exclusiveMatcher : CodepointMatcher)
    (cp : Codepoint) : bool :=
  inclusiveMatcher cp && negb (exclusiveMatcher cp).

(** Between two ranges of a sequence: the later one begins after a gap. *)
Definition apart (r1 r2 : Range) : Prop := End r1 + 1 < Begin r2.

(** The scanner's loop invariant, after the records [pre] have been read.
    The frontier is the first position not yet settled: the start of the open
    run, or the next position to read. *)
Definition frontier (pre : list Codepoint) (st : Scanner.State) : Z :=
  if Scanner.inRange st then Scanner.startRange st
  else Z.of_nat (List.length pre).

Record scan_inv (p : Codepoint -> bool) (pre : list Codepoint)
    (st : Scanner.State) : Prop := {
  inv_frontier : 0 <= frontier pre st <= Z.of_nat (List.length pre);
  inv_open :
    Scanner.inRange st = true ->
    frontier pre st < Z.of_nat (List.length pre) /\
    forall j cp, nth_error pre j = Some cp ->
                 frontier pre st <= Z.of_nat j -> p cp = true;
  inv_closed :
    Forall (fun r => 0 <= Begin r <= End r /\ End r + 1 < frontier pre st)
           (Scanner.ranges st);
  inv_apart : StronglySorted apart (Scanner.ranges st);
  inv_cover :
    forall j cp, nth_error pre j = Some cp ->
                 Z.of_nat j < frontier pre st ->
                 (covers (Scanner.ranges st) (Z.of_nat j) <-> p cp = true)
}.

(** The first [n] placeholder records of [generateCode]: before the database
    is read, position [i] holds scalar value [i] with blank categories. *)
Definition placeholders (n : nat) : list Codepoint :=
  map (fun i => {| Codepoint_ := to_rune (Z.of_nat i);
                   MajorCategory := " "%char;
                   MinorCategory := " "%char |})
      (seq 0 n).

(** Reading upper-case hexadecimal: the value of a digit [0-9A-F], and of a
    non-empty string of such digits. *)
Definition hex_digit_value (c : ascii) : option Z :=
  let b := byte c in
  if (48 <=? b) && (b <=? 57) then Some (b - 48)
  else if (65 <=? b) && (b <=? 70) then Some (b - 55)
  else None.

Fixpoint hex_value_from (acc : Z) (s : string) : option Z :=
  match s with
  | EmptyString => Some acc
  | String c rest =>
      match hex_digit_value c with
      | Some d => hex_value_from (acc * 16 + d) rest
      | None => None
      end
  end.

Definition hex_value (s : string) : option Z :=
  match s with
  | EmptyString => None
  | _ => hex_value_from 0 s
  end.

(** No padding: no leading zero, except in the text of zero itself. *)
Definition unpadded (s : string) : Prop :=
  s = "0" \/ exists c rest, s = String c rest /\ c <> "0"%char.

(** [h] is the upper-case, unpadded hexadecimal text of [v]; a negative
    value is a minus sign and the text of its magnitude. *)
Definition upper_hex (h : string) (v : Z) : Prop :=
  exists m,
    h = (if v <? 0 then String "-"%char m else m) /\
    hex_value m = Some (Z.abs v) /\
    unpadded m.

(** The byte [c] occurs in [s]. *)
Fixpoint has_byte (c : ascii) (s : string) : bool :=
  match s with
  | EmptyString => false
  | String x rest => Ascii.eqb x c || has_byte c rest
  end.

(** The text of one range in a wrapped layout: a space before it unless it
    is the first of its line, and [ |] after it unless it is the last range
    of the whole sequence. *)
Definition token (first_on_line last_of_all : bool) (r : Range) : string :=
  ((if first_on_line then EmptyString else " ") ++ Range_String r
   ++ (if last_of_all then EmptyString else " |"))%string.

(** The text of the ranges [line] placed on one line; [more] tells whether
    other ranges follow the line. *)
Fixpoint line_text (first_on_line : bool) (line : list Range) (more : bool)
    : string :=
  match line with
  | [] => EmptyString
  | r :: rest =>
      match rest with
      | [] => token first_on_line (negb more) r
      | _ :: _ =>
          (token first_on_line false r ++ line_text false rest more)%string
      end
  end.

(** The text of a layout, a sequence of lines: the leadup before the first
    line, as many blanks before each of the others, a line break after each. *)
Fixpoint layout_text (leadup : string) (lines : list (list Range)) : string :=
  match lines with
  | [] => EmptyString
  | line :: rest =>
      (leadup
       ++ line_text true line (match rest with [] => false | _ => true end)
       ++ newline
       ++ layout_text (Repeat_space (len leadup)) rest)%string
  end.

(** A line as the specification words it: [ |] after all but the last range
    placed on the line and a space before all but the first, that is, the
    texts of the ranges of the line joined by [ | ]. *)
Definition line_text_as_specified (line : list Range) : string :=
  String.concat " | " (map Range_String line).

(** The decoder gave up on [v]: it is empty (width 0) or starts with an
    invalid encoding (width 1).  A well-formed U+FFFD has width 3. *)
Definition undecodable (v : string) : Prop :=
  exists width,
    utf8.DecodeRuneInString v = (utf8.RuneError, width) /\ width <= 1.

(* ------------------------------------------------------------------ *)
(** ** Further vocabulary *)

(** The number of occurrences of the byte [c] in [s]. *)
Fixpoint count_byte (c : ascii) (s : string) : nat :=
  match s with
  | EmptyString => O
  | String x rest =>
      if Ascii.eqb x c then S (count_byte c rest) else count_byte c rest
  end.

(* ------------------------------------------------------------------ *)
(** ** The generation mode: [LoadedCodepoint], [generateCode] *)

(** [strconv.ParseInt(s, 16, 32)]: a sign, then the digits through
    [ParseUint] with the same 32 bits, then the signed range.  After a range
    error of [ParseUint], whose value is then [1<<32 - 1], either test on
    the cutoff [1<<31] fails too. *)
Definition ParseInt (s : string) : Z + NumError :=
  match s with
  | EmptyString => inr (strconv.syntaxError s)
  | String c0 rest =>
      let s0 := s in
      let neg := Ascii.eqb c0 "-"%char in
      let s := if Ascii.eqb c0 "+"%char then rest
               else if Ascii.eqb c0 "-"%char then rest
               else s in
      match strconv.ParseUint s with
      | inr err =>
          match Err err with
          | ErrSyntax => inr (strconv.syntaxError s0)
          | ErrRange => inr (strconv.rangeError s0)
          end
      | inl un =>
          let cutoff := 2 ^ 31 in
          if negb neg && (un >=? cutoff) then inr (strconv.rangeError s0)
          else if neg && (un >? cutoff) then inr (strconv.rangeError s0)
          else inl (if neg then - un else un)
      end
  end.

Module Loaded.

(** [type LoadedCodepoint struct]: the attributes of one [char] or
    [reserved] element and the fields computed from them. *)
Record LoadedCodepoint := {
  CodepointStr : string;
  FirstCPStr : string;
  LastCPStr : string;
  Category : string;
  MajorCategory : ascii;
  MinorCategory : ascii;
  Codepoint_ : Z
}.

(** [func (_this *LoadedCodepoint) fixup()] *)
Definition fixup (_this : LoadedCodepoint) : LoadedCodepoint :=
  let _this :=
    if (byte (MinorCategory _this) <? 97) || (byte (MinorCategory _this) >? 122)
    then {| CodepointStr := CodepointStr _this;
            FirstCPStr := FirstCPStr _this;
            LastCPStr := LastCPStr _this;
            Category := Category _this;
            MajorCategory := MajorCategory _this;
            MinorCategory := " "%char;
            Codepoint_ := Codepoint_ _this |}
    else _this in
  if (byte (MajorCategory _this) <? 65) || (byte (MajorCategory _this) >? 90)
  then {| CodepointStr := CodepointStr _this;
          FirstCPStr := FirstCPStr _this;
          LastCPStr := LastCPStr _this;
          Category := Category _this;
          MajorCategory := " "%char;
          MinorCategory := MinorCategory _this;
          Codepoint_ := Codepoint_ _this |}
  else _this.

(** The record that the loop of [All] appends for the codepoint [i]. *)
Definition expanded (_this : LoadedCodepoint) (i : Z) : LoadedCodepoint :=
  {| CodepointStr := EmptyString;
     FirstCPStr := EmptyString;
     LastCPStr := EmptyString;
     Category := Category _this;
     MajorCategory := MajorCategory _this;
     MinorCategory := MinorCategory _this;
     Codepoint_ := i |}.

(** [for i := rune(firstCP); i <= rune(lastCP); i++]; the increment is that
    of an [int32]. *)
Fixpoint All_loop (fuel : nat) (_this : LoadedCodepoint) (i lastCP : Z)
    (result : list LoadedCodepoint) : option (list LoadedCodepoint) :=
  if i <=? lastCP then
    match fuel with
    | O => None
    | S fuel' =>
        All_loop fuel' _this (to_rune (i + 1)) lastCP
                 (result ++ [expanded _this i])
    end
  else Some result.

(** [func (_this *LoadedCodepoint) All() (result []*LoadedCodepoint)]: the
    receiver as the call leaves it, and the result.  [None]: the loop is
    still running when the fuel is spent. *)
Definition All (fuel : nat) (_this : LoadedCodepoint)
    : option (Outcome (LoadedCodepoint * list LoadedCodepoint)) :=
  match Category _this with
  | EmptyString => Some (Panicked PanicIndexOutOfRange)
  | String major more =>
      let _this :=
        {| CodepointStr := CodepointStr _this;
           FirstCPStr := FirstCPStr _this;
           LastCPStr := LastCPStr _this;
           Category := Category _this;
           MajorCategory := major;
           MinorCategory := match more with
                            | String minor _ => minor
                            | EmptyString => MinorCategory _this
                            end;
           Codepoint_ := Codepoint_ _this |} in
      if negb (String.eqb (CodepointStr _this) EmptyString) then
        match ParseInt (CodepointStr _this) with
        | inr _ => Some (Returned (_this, []))
        | inl codepoint =>
            let _this :=
              {| CodepointStr := CodepointStr _this;
                 FirstCPStr := FirstCPStr _this;
                 LastCPStr := LastCPStr _this;
                 Category := Category _this;
                 MajorCategory := MajorCategory _this;
                 MinorCategory := MinorCategory _this;
                 Codepoint_ := to_rune codepoint |} in
            Some (Returned (_this, [_this]))
        end
      else
        match ParseInt (FirstCPStr _this) with
        | inr _ => Some (Returned (_this, []))
        | inl firstCP =>
            match ParseInt (LastCPStr _this) with
            | inr _ => Some (Returned (_this, []))
            | inl lastCP =>
                match All_loop fuel _this (to_rune firstCP) (to_rune lastCP) []
                with
                | None => None
                | Some result => Some (Returned (_this, result))
                end
            end
        end
  end.

End Loaded.

(** The runtime errors of the table construction. *)
Inductive RuntimeError :=
| IndexOutOfRange
| SliceBoundsOutOfRange.

(** [l[i] = a] for an index within the slice. *)
Fixpoint set_index {A : Type} (l : list A) (i : nat) (a : A) : list A :=
  match l, i with
  | [], _ => []
  | _ :: tl, O => a :: tl
  | x :: tl, S i' => x :: set_index tl i' a
  end.

(** The loop of [generateCode] over the loaded codepoints: each one is fixed
    up and stored at the index given by its codepoint. *)
Fixpoint generateCode_fill (loadedCodepoints : list Loaded.LoadedCodepoint)
    (codepoints : list Codepoint) : list Codepoint + RuntimeError :=
  match loadedCodepoints with
  | [] => inl codepoints
  | cp :: rest =>
      let cp := Loaded.fixup cp in
      if (0 <=? Loaded.Codepoint_ cp)
         && (Loaded.Codepoint_ cp <? Z.of_nat (List.length codepoints))
      then
        generateCode_fill rest
          (set_index codepoints (Z.to_nat (Loaded.Codepoint_ cp))
             {| Codepoint_ := Loaded.Codepoint_ cp;
                MajorCategory := Loaded.MajorCategory cp;
                MinorCategory := Loaded.MinorCategory cp |})
      else inr IndexOutOfRange
  end.

(** The table that [generateCode] writes out, from the codepoints that
    [loadUnicodeDB] returned: 0x110000 placeholders, the loaded codepoints
    stored over them, then the cut to [codepoints[:highCP]] and
    [codepoints[lowCP:]]. *)
Definition generateCode_table (lowCP highCP : Z)
    (loadedCodepoints : list Loaded.LoadedCodepoint)
    : list Codepoint + RuntimeError :=
  let codepoints := placeholders (Z.to_nat 0x110000) in
  match generateCode_fill loadedCodepoints codepoints with
  | inr e => inr e
  | inl codepoints =>
      let codepoints :=
        if highCP <? Z.of_nat (List.length codepoints)
        then firstn (Z.to_nat highCP) codepoints
        else codepoints in
      if lowCP >? 0 then
        if lowCP <=? Z.of_nat (List.length codepoints)
        then inl (skipn (Z.to_nat lowCP) codepoints)
        else inr SliceBoundsOutOfRange
      else inl codepoints
  end.

(** The categories that the table is to hold for the codepoint [c]: those of
    the last loaded codepoint with this value, fixed up, or blanks. *)
Definition loaded_categories (loadedCodepoints : list Loaded.LoadedCodepoint)
    (c : Z) : ascii * ascii :=
  match find (fun l => Loaded.Codepoint_ l =? c) (rev loadedCodepoints) with
  | Some l => (Loaded.MajorCategory (Loaded.fixup l),
               Loaded.MinorCategory (Loaded.fixup l))
  | None => (" "%char, " "%char)
  end.

(** A byte that a category field of the table may hold. *)
Definition major_ok (c : ascii) : Prop :=
  c = " "%char \/ 65 <= byte c <= 90.
Definition minor_ok (c : ascii) : Prop :=
  c = " "%char \/ 97 <= byte c <= 122.

(* ================================================================== *)
(** * Properties *)

(** ** Arithmetic and list helpers *)

Lemma to_rune_small (x : Z) : is_rune x -> to_rune x = x.
Proof.
  unfold is_rune, to_rune. intros H.
  rewrite Z.mod_small; lia.
Qed.

Lemma StronglySorted_snoc {A} (R : A -> A -> Prop) (l : list A) (a : A) :
  StronglySorted R l -> Forall (fun x => R x a) l ->
  StronglySorted R (l ++ [a]).
Proof.
  induction 1 as [|x l Hl IH Hx]; intros Ha; simpl.
  - constructor; constructor.
  - inversion Ha; subst. constructor.
    + apply IH; assumption.
    + apply Forall_app. split; [assumption | constructor; [assumption | constructor]].
Qed.

Lemma StronglySorted_weaken {A} (R R' : A -> A -> Prop) (l : list A) :
  (forall a b, In a l -> R a b -> R' a b) ->
  StronglySorted R l -> StronglySorted R' l.
Proof.
  intros Himp Hs. induction Hs as [|x l Hl IH Hx].
  - constructor.
  - constructor.
    + apply IH. intros a b Ha. apply Himp. right; exact Ha.
    + eapply Forall_impl; [|exact Hx]. intros b. apply Himp. left; reflexivity.
Qed.

Lemma anyMatch_true (ms : list CodepointMatcher) (cp : Codepoint) :
  anyMatch ms cp = true <-> exists m, In m ms /\ m cp = true.
Proof.
  induction ms as [|m ms IH]; simpl.
  - split; [discriminate | intros (m & [] & _)].
  - destruct (m cp) eqn:E.
    + split; [intros _; exists m; auto | reflexivity].
    + rewrite IH. split.
      * intros (m' & Hin & Hm). exists m'; auto.
      * intros (m' & [<- | Hin] & Hm); [congruence | exists m'; auto].
Qed.

Lemma anyMatch_false (ms : list CodepointMatcher) (cp : Codepoint) :
  anyMatch ms cp = false <-> forall m, In m ms -> m cp = false.
Proof.
  split.
  - intros H m Hin. destruct (m cp) eqn:E; [|reflexivity].
    assert (anyMatch ms cp = true) by (apply anyMatch_true; eauto).
    congruence.
  - intros H. destruct (anyMatch ms cp) eqn:E; [|reflexivity].
    apply anyMatch_true in E. destruct E as (m & Hin & Hm).
    rewrite (H m Hin) in Hm. discriminate.
Qed.

Lemma selects_matched (inclusive exclusive : list CodepointMatcher) cp :
  selects (anyMatch inclusive) (anyMatch exclusive) cp = true <->
  matched inclusive exclusive cp.
Proof.
  unfold selects, matched.
  rewrite andb_true_iff, negb_true_iff, anyMatch_true, anyMatch_false.
  reflexivity.
Qed.

(** ** Tables *)

Lemma ascending_from (l : list Codepoint) :
  StronglySorted (fun a b => Codepoint_ a < Codepoint_ b) l ->
  forall lo i cp,
    Forall (fun cp => lo <= Codepoint_ cp) l ->
    nth_error l i = Some cp -> lo + Z.of_nat i <= Codepoint_ cp.
Proof.
  induction 1 as [|x l Hl IH Hx]; intros lo i cp Hlo Hn.
  - destruct i; discriminate.
  - inversion Hlo as [|? ? Hx0 Hl0]; subst.
    destruct i as [|i]; simpl in Hn.
    + injection Hn as <-. lia.
    + assert (Hup : Forall (fun cp => Codepoint_ x + 1 <= Codepoint_ cp) l).
      { eapply Forall_impl; [|exact Hx]. simpl. intros; lia. }
      specialize (IH (Codepoint_ x + 1) i cp Hup Hn). lia.
Qed.

Lemma ordered_table_position (tbl : list Codepoint) :
  ordered_table tbl ->
  forall i cp, nth_error tbl i = Some cp -> Z.of_nat i <= Codepoint_ cp.
Proof.
  intros [Hsc Hs] i cp Hn.
  assert (H0 : Forall (fun cp => 0 <= Codepoint_ cp) tbl).
  { eapply Forall_impl; [|exact Hsc]. unfold scalar. simpl. intros; lia. }
  pose proof (ascending_from tbl Hs 0 i cp H0 Hn). lia.
Qed.

Lemma ordered_table_length (tbl : list Codepoint) :
  ordered_table tbl -> Z.of_nat (List.length tbl) <= 0x110000.
Proof.
  intros Hord. destruct (List.length tbl) as [|n] eqn:E; [lia|].
  destruct (nth_error tbl n) as [cp|] eqn:Hn.
  - pose proof (ordered_table_position tbl Hord n cp Hn) as Hpos.
    destruct Hord as [Hsc _]. rewrite Forall_forall in Hsc.
    specialize (Hsc cp (nth_error_In _ _ Hn)). unfold scalar in Hsc. lia.
  - apply nth_error_None in Hn. lia.
Qed.

Lemma unrestricted_ordered (tbl : list Codepoint) :
  unrestricted_table tbl -> ordered_table tbl.
Proof.
  intros [Hsc Hpos]. split; [exact Hsc|]. clear Hsc.
  assert (Hgen : forall k, (forall i cp, nth_error tbl i = Some cp ->
                       Codepoint_ cp = Z.of_nat (k + i)) ->
          StronglySorted (fun a b => Codepoint_ a < Codepoint_ b) tbl).
  { clear Hpos. induction tbl as [|x l IH]; intros k Hk; constructor.
    - apply (IH (S k)). intros i cp Hn. rewrite (Hk (S i) cp Hn). f_equal. lia.
    - apply Forall_forall. intros y Hy. apply In_nth_error in Hy.
      destruct Hy as [j Hj]. rewrite (Hk (S j) y Hj), (Hk O x eq_refl). lia. }
  apply (Hgen O). exact Hpos.
Qed.

(** ** The scanner's invariant *)

Lemma covers_app (rs1 rs2 : Ranges) (v : Z) :
  covers (rs1 ++ rs2) v <-> covers rs1 v \/ covers rs2 v.
Proof.
  unfold covers. split.
  - intros (r & Hin & Hr). apply in_app_or in Hin.
    destruct Hin; [left | right]; exists r; auto.
  - intros [(r & Hin & Hr) | (r & Hin & Hr)]; exists r; split; auto;
      apply in_or_app; auto.
Qed.

Lemma covers_single (r : Range) (v : Z) :
  covers [r] v <-> Begin r <= v <= End r.
Proof.
  unfold covers. split.
  - intros (r' & [<- | []] & Hr). exact Hr.
  - intros H. exists r. split; [left; reflexivity | exact H].
Qed.

Lemma closed_not_covering (rs : Ranges) (b v : Z) :
  Forall (fun r => 0 <= Begin r <= End r /\ End r + 1 < b) rs ->
  b - 1 <= v -> ~ covers rs v.
Proof.
  intros Hc Hv (r & Hin & Hr).
  rewrite Forall_forall in Hc. specialize (Hc r Hin). lia.
Qed.

Lemma nth_error_snoc {A} (l : list A) (a x : A) (j : nat) :
  nth_error (l ++ [a]) j = Some x ->
  (nth_error l j = Some x /\ (j < List.length l)%nat) \/
  (j = List.length l /\ x = a).
Proof.
  intros H. destruct (Nat.lt_ge_cases j (List.length l)) as [Hlt | Hge].
  - rewrite nth_error_app1 in H by exact Hlt. left; auto.
  - rewrite nth_error_app2 in H by exact Hge.
    destruct (j - List.length l)%nat as [|k] eqn:E; simpl in H.
    + injection H as <-. right. split; [lia | reflexivity].
    + destruct k; discriminate.
Qed.

Section ScanInvariant.

Variables inclusiveMatcher exclusiveMatcher : CodepointMatcher.

Lemma scan_inv_init : scan_inv (selects inclusiveMatcher exclusiveMatcher) [] Scanner.init.
Proof.
  constructor; simpl; unfold frontier; simpl.
  - lia.
  - discriminate.
  - constructor.
  - constructor.
  - intros j cp Hn. destruct j; discriminate.
Qed.

Lemma scan_inv_step (pre : list Codepoint) (cp : Codepoint)
    (st : Scanner.State) :
  Z.of_nat (List.length pre) < 2 ^ 31 ->
  scan_inv (selects inclusiveMatcher exclusiveMatcher) pre st ->
  scan_inv (selects inclusiveMatcher exclusiveMatcher) (pre ++ [cp])
           (Scanner.step inclusiveMatcher exclusiveMatcher
                         (List.length pre) cp st).
Proof.
  intros Hlen [Hf Ho Hc Ha Hv].
  unfold Scanner.step. fold (selects inclusiveMatcher exclusiveMatcher cp).
  unfold frontier in *.
  assert (Hlen' : Z.of_nat (List.length (pre ++ [cp]))
                  = Z.of_nat (List.length pre) + 1).
  { rewrite length_app. simpl. lia. }
  destruct (selects inclusiveMatcher exclusiveMatcher cp) eqn:Hp; destruct (Scanner.inRange st) eqn:Hin.
  - (* the run goes on *)
    destruct (Ho eq_refl) as [Hlt Hall].
    constructor; simpl; unfold frontier; simpl; rewrite ?Hlen'.
    + lia.
    + intros _. split; [lia|]. intros j c Hn Hj.
      apply nth_error_snoc in Hn. destruct Hn as [[Hn _] | [_ ->]]; eauto.
    + exact Hc.
    + exact Ha.
    + intros j c Hn Hj. apply nth_error_snoc in Hn.
      destruct Hn as [[Hn _] | [-> ->]]; [auto | lia].
  - (* a run opens *)
    rewrite to_rune_small by (unfold is_rune; lia).
    constructor; simpl; unfold frontier; simpl; rewrite ?Hlen'.
    + lia.
    + intros _. split; [lia|]. intros j c Hn Hj.
      apply nth_error_snoc in Hn. destruct Hn as [[Hn Hl] | [_ ->]]; [lia | exact Hp].
    + exact Hc.
    + exact Ha.
    + intros j c Hn Hj. apply nth_error_snoc in Hn.
      destruct Hn as [[Hn _] | [-> ->]]; [auto | lia].
  - (* the run closes *)
    destruct (Ho eq_refl) as [Hlt Hall].
    rewrite to_rune_small by (unfold is_rune; lia).
    constructor; simpl; unfold frontier; simpl; rewrite ?Hlen'.
    + lia.
    + discriminate.
    + apply Forall_app. split.
      * eapply Forall_impl; [|exact Hc]. simpl. intros r Hr. lia.
      * constructor; [simpl; lia | constructor].
    + apply StronglySorted_snoc; [exact Ha|].
      eapply Forall_impl; [|exact Hc]. unfold apart. simpl. intros r Hr. lia.
    + intros j c Hn Hj. rewrite covers_app, covers_single. simpl.
      apply nth_error_snoc in Hn. destruct Hn as [[Hn Hl] | [-> ->]].
      * destruct (Z.lt_ge_cases (Z.of_nat j) (Scanner.startRange st)) as [Hb | Hb].
        -- rewrite <- (Hv j c Hn Hb). split; [intros [H | H]; [exact H | lia] | auto].
        -- rewrite (Hall j c Hn Hb). split; [reflexivity | intros _; right; lia].
      * rewrite Hp. split; [|discriminate]. intros [H | H]; [|lia].
        exfalso. revert H. eapply closed_not_covering; [exact Hc | lia].
  - (* no run *)
    constructor; simpl; unfold frontier; simpl; rewrite ?Hlen'.
    + lia.
    + discriminate.
    + eapply Forall_impl; [|exact Hc]. simpl. intros r Hr. lia.
    + exact Ha.
    + intros j c Hn Hj. apply nth_error_snoc in Hn.
      destruct Hn as [[Hn Hl] | [-> ->]].
      * apply Hv; [exact Hn | lia].
      * rewrite Hp. split; [|discriminate]. intros H.
        exfalso. revert H. eapply closed_not_covering; [exact Hc | lia].
Qed.

Lemma scan_inv_loop (suf pre : list Codepoint) (st : Scanner.State) :
  Z.of_nat (List.length (pre ++ suf)) <= 2 ^ 31 ->
  scan_inv (selects inclusiveMatcher exclusiveMatcher) pre st ->
  scan_inv (selects inclusiveMatcher exclusiveMatcher) (pre ++ suf)
           (Scanner.loop inclusiveMatcher exclusiveMatcher
                         (List.length pre) suf st).
Proof.
  revert pre st. induction suf as [|cp suf IH]; intros pre st Hlen Hinv; simpl.
  - rewrite app_nil_r. exact Hinv.
  - assert (E : pre ++ cp :: suf = (pre ++ [cp]) ++ suf)
      by (rewrite <- app_assoc; reflexivity).
    rewrite E in *.
    replace (S (List.length pre)) with (List.length (pre ++ [cp]))
      by (rewrite length_app; simpl; lia).
    apply IH; [exact Hlen|].
    apply scan_inv_step; [|exact Hinv].
    rewrite !length_app in Hlen. simpl in Hlen. lia.
Qed.

Lemma scan_inv_table (tbl : list Codepoint) :
  Z.of_nat (List.length tbl) <= 2 ^ 31 ->
  scan_inv (selects inclusiveMatcher exclusiveMatcher) tbl
           (Scanner.loop inclusiveMatcher exclusiveMatcher 0 tbl Scanner.init).
Proof.
  intros Hlen. apply (scan_inv_loop tbl [] Scanner.init Hlen scan_inv_init).
Qed.

End ScanInvariant.

(** ** What [query] returns *)

Lemma last_entry_some (tbl : list Codepoint) :
  tbl <> [] -> exists cp, last_entry tbl = Some cp.
Proof.
  intros Hne. unfold last_entry.
  destruct (nth_error tbl (List.length tbl - 1)) as [cp|] eqn:E; [eauto|].
  apply nth_error_None in E. destruct tbl; [congruence | simpl in E; lia].
Qed.

(** On an ordered table [query] returns, and its ranges are well formed, kept
    apart, and cover exactly the selected positions. *)
Lemma query_scan (tbl : list Codepoint)
    (inclusiveMatcher exclusiveMatcher : CodepointMatcher) :
  ordered_table tbl ->
  exists rs,
    query tbl inclusiveMatcher exclusiveMatcher = Returned rs /\
    Forall (fun r => 0 <= Begin r <= End r) rs /\
    StronglySorted apart rs /\
    forall j cp, nth_error tbl j = Some cp ->
      (covers rs (Z.of_nat j) <->
       selects inclusiveMatcher exclusiveMatcher cp = true).
Proof.
  intros Hord.
  pose proof (ordered_table_length tbl Hord) as Hlen.
  assert (Hlen' : Z.of_nat (List.length tbl) <= 2 ^ 31) by lia.
  pose proof (scan_inv_table inclusiveMatcher exclusiveMatcher tbl Hlen')
    as [Hf Ho Hc Ha Hv].
  unfold query.
  set (st := Scanner.loop inclusiveMatcher exclusiveMatcher 0 tbl Scanner.init)
    in *.
  unfold frontier in *.
  destruct (Scanner.inRange st) eqn:Hin.
  - destruct (Ho eq_refl) as [Hlt Hall].
    assert (Hne : tbl <> []) by (intros ->; simpl in Hlt; lia).
    destruct (last_entry_some tbl Hne) as [lastcp Hlast]. rewrite Hlast.
    pose proof (ordered_table_position tbl Hord _ _ Hlast) as Hpos.
    assert (Hge : Z.of_nat (List.length tbl) - 1 <= Codepoint_ lastcp).
    { destruct tbl; [congruence | simpl List.length in *; lia]. }
    eexists. split; [reflexivity|]. split; [|split].
    + apply Forall_app. split.
      * eapply Forall_impl; [|exact Hc]. simpl. intros r Hr. lia.
      * constructor; [simpl; lia | constructor].
    + apply StronglySorted_snoc; [exact Ha|].
      eapply Forall_impl; [|exact Hc]. unfold apart. simpl. intros r Hr. lia.
    + intros j cp Hn. rewrite covers_app, covers_single. simpl.
      assert (Hj : (j < List.length tbl)%nat)
        by (apply nth_error_Some; congruence).
      destruct (Z.lt_ge_cases (Z.of_nat j) (Scanner.startRange st)) as [Hb | Hb].
      * rewrite <- (Hv j cp Hn Hb).
        split; [intros [H | H]; [exact H | lia] | auto].
      * rewrite (Hall j cp Hn Hb).
        split; [reflexivity | intros _; right; lia].
  - exists (Scanner.ranges st). split; [reflexivity|]. split; [|split].
    + eapply Forall_impl; [|exact Hc]. simpl. intros r Hr. lia.
    + exact Ha.
    + intros j cp Hn. apply Hv; [exact Hn|].
      assert (Hj : (j < List.length tbl)%nat)
        by (apply nth_error_Some; congruence).
      lia.
Qed.

(** Where nothing is selected the loop leaves a state without a run as it
    found it. *)
Lemma loop_nothing_selected
    (inclusiveMatcher exclusiveMatcher : CodepointMatcher)
    (tbl : list Codepoint) (i : nat) (st : Scanner.State) :
  (forall cp, In cp tbl ->
              selects inclusiveMatcher exclusiveMatcher cp = false) ->
  Scanner.inRange st = false ->
  Scanner.loop inclusiveMatcher exclusiveMatcher i tbl st = st.
Proof.
  revert i st. induction tbl as [|cp tl IH]; intros i st Hno Hin; simpl.
  - reflexivity.
  - assert (Hstep : Scanner.step inclusiveMatcher exclusiveMatcher i cp st = st).
    { unfold Scanner.step.
      pose proof (Hno cp (or_introl eq_refl)) as Hcp. unfold selects in Hcp.
      rewrite Hcp, Hin. destruct st; simpl in *; congruence. }
    rewrite Hstep. apply IH; [|exact Hin].
    intros c Hc. apply Hno. right; exact Hc.
Qed.

Lemma query_nothing_selected (tbl : list Codepoint)
    (inclusiveMatcher exclusiveMatcher : CodepointMatcher) :
  (forall cp, In cp tbl ->
              selects inclusiveMatcher exclusiveMatcher cp = false) ->
  query tbl inclusiveMatcher exclusiveMatcher = Returned [].
Proof.
  intros Hno. unfold query.
  rewrite (loop_nothing_selected _ _ tbl 0%nat Scanner.init Hno eq_refl).
  reflexivity.
Qed.

(** A small table for the examples: the placeholder records with which
    [generateCode] fills its table before the database is read. *)
Lemma placeholder_table_unrestricted :
  unrestricted_table (placeholders 128).
Proof.
  split.
  - apply Forall_forall. intros cp Hin. unfold placeholders in Hin.
    apply in_map_iff in Hin. destruct Hin as (i & <- & Hi).
    apply in_seq in Hi. unfold scalar. cbn [Codepoint_].
    rewrite to_rune_small by (unfold is_rune; lia). lia.
  - intros i cp Hn. unfold placeholders in Hn.
    rewrite nth_error_map in Hn.
    destruct (nth_error (seq 0 128) i) as [k|] eqn:E; [|discriminate].
    injection Hn as <-. cbn [Codepoint_].
    assert (Hi : (i < List.length (seq 0 128))%nat)
      by (apply nth_error_Some; congruence).
    rewrite length_seq in Hi.
    pose proof (nth_error_nth _ _ 0%nat E) as Hk.
    rewrite seq_nth in Hk by exact Hi. subst k.
    apply to_rune_small. unfold is_rune. lia.
Qed.

(** C4.  On every table (records of scalar values in ascending order) and for
    every pair of predicates, [query] returns ranges with [Begin <= End],
    strictly ascending by [Begin], not overlapping and not adjacent: after a
    range ends, at least one value is skipped before the next begins. *)
Theorem query_ranges_ordered_apart (tbl : list Codepoint)
    (inclusiveMatcher exclusiveMatcher : CodepointMatcher) :
  ordered_table tbl ->
  exists rs,
    query tbl inclusiveMatcher exclusiveMatcher = Returned rs /\
    Forall (fun r => Begin r <= End r) rs /\
    StronglySorted (fun r1 r2 => Begin r1 < Begin r2) rs /\
    StronglySorted (fun r1 r2 => End r1 < Begin r2) rs /\
    StronglySorted (fun r1 r2 => End r1 + 1 <> Begin r2) rs /\
    StronglySorted apart rs.
Proof.
  intros Hord.
  destruct (query_scan tbl inclusiveMatcher exclusiveMatcher Hord)
    as (rs & Hq & Hwf & Hap & _).
  exists rs. split; [exact Hq|].
  rewrite Forall_forall in Hwf.
  repeat split.
  - apply Forall_forall. intros r Hr. specialize (Hwf r Hr). lia.
  - eapply StronglySorted_weaken; [|exact Hap].
    unfold apart. intros a b Ha Hab. specialize (Hwf a Ha). lia.
  - eapply StronglySorted_weaken; [|exact Hap].
    unfold apart. intros a b Ha Hab. lia.
  - eapply StronglySorted_weaken; [|exact Hap].
    unfold apart. intros a b Ha Hab. lia.
  - exact Hap.
Qed.

Lemma query_ranges_ordered_apart_witness :
  exists rs,
    query (placeholders 128)
          (fun cp => (Codepoint_ cp =? 65) || (Codepoint_ cp >=? 97))
          (fun cp => Codepoint_ cp =? 100) = Returned rs /\
    Forall (fun r => Begin r <= End r) rs /\
    StronglySorted (fun r1 r2 => Begin r1 < Begin r2) rs /\
    StronglySorted (fun r1 r2 => End r1 < Begin r2) rs /\
    StronglySorted (fun r1 r2 => End r1 + 1 <> Begin r2) rs /\
    StronglySorted apart rs.
Proof.
  apply query_ranges_ordered_apart.
  apply unrestricted_ordered. exact placeholder_table_unrestricted.
Defined.



(** ** Strings *)

Lemma append_assoc (a b c : string) : ((a ++ b) ++ c = a ++ (b ++ c))%string.
Proof. induction a as [|x a IH]; simpl; [reflexivity | rewrite IH; reflexivity]. Qed.

Lemma append_nil_r (a : string) : (a ++ EmptyString)%string = a.
Proof. induction a as [|x a IH]; simpl; [reflexivity | rewrite IH; reflexivity]. Qed.

Lemma length_append (a b : string) :
  String.length (a ++ b) = (String.length a + String.length b)%nat.
Proof. induction a as [|x a IH]; simpl; [reflexivity | rewrite IH; reflexivity]. Qed.

Lemma len_append (a b : string) : len (a ++ b) = len a + len b.
Proof. unfold len. rewrite length_append. lia. Qed.

Lemma len_nonneg (a : string) : 0 <= len a.
Proof. unfold len. lia. Qed.

(** ** Hexadecimal text *)

Lemma hex_value_from_app (a b : string) (acc : Z) :
  hex_value_from acc (a ++ b) =
  match hex_value_from acc a with
  | Some v => hex_value_from v b
  | None => None
  end.
Proof.
  revert acc. induction a as [|c a IH]; intros acc; simpl.
  - reflexivity.
  - destruct (hex_digit_value c); [apply IH | reflexivity].
Qed.

Lemma digit_value (u : Z) :
  0 <= u < 16 -> hex_digit_value (digit u) = Some u.
Proof.
  intros H.
  assert (E : u = 0 \/ u = 1 \/ u = 2 \/ u = 3 \/ u = 4 \/ u = 5 \/ u = 6 \/
              u = 7 \/ u = 8 \/ u = 9 \/ u = 10 \/ u = 11 \/ u = 12 \/
              u = 13 \/ u = 14 \/ u = 15) by lia.
  repeat (destruct E as [-> | E]; [reflexivity|]). subst u. reflexivity.
Qed.

Lemma digit_zero (u : Z) :
  0 <= u < 16 -> digit u = "0"%char -> u = 0.
Proof.
  intros H.
  assert (E : u = 0 \/ u = 1 \/ u = 2 \/ u = 3 \/ u = 4 \/ u = 5 \/ u = 6 \/
              u = 7 \/ u = 8 \/ u = 9 \/ u = 10 \/ u = 11 \/ u = 12 \/
              u = 13 \/ u = 14 \/ u = 15) by lia.
  repeat (destruct E as [-> | E]; [intros; (reflexivity || discriminate)|]).
  subst u. discriminate.
Qed.

(** The digits the loop writes before [buf]: they read back as [u], and the
    first of them is no zero unless [u] is zero. *)
Lemma fmtHex_digits (fuel : nat) :
  forall u buf, 0 <= u < 16 ^ (Z.of_nat fuel + 1) ->
  exists ds,
    fmtHex fuel u buf = (ds ++ buf)%string /\
    (forall acc, hex_value_from acc ds
                 = Some (acc * 16 ^ len ds + u)) /\
    (exists c rest, ds = String c rest /\ (c = "0"%char -> u = 0 /\ rest = EmptyString)).
Proof.
  assert (Hone : forall u buf, 0 <= u < 16 ->
    exists ds,
      String (digit u) buf = (ds ++ buf)%string /\
      (forall acc, hex_value_from acc ds = Some (acc * 16 ^ len ds + u)) /\
      (exists c rest, ds = String c rest /\
                      (c = "0"%char -> u = 0 /\ rest = EmptyString))).
  { intros u buf Hu. exists (String (digit u) EmptyString). split; [reflexivity|]. split.
    - intros acc. simpl. rewrite (digit_value u Hu). f_equal.
    - exists (digit u), EmptyString. split; [reflexivity|].
      intros Hz. split; [apply (digit_zero u Hu Hz) | reflexivity]. }
  induction fuel as [|fuel IH]; intros u buf Hu.
  - simpl. apply Hone. simpl in Hu. lia.
  - simpl. destruct (u >=? 16) eqn:Hge; [|apply Hone; lia].
    assert (Hu16 : 16 <= u) by lia.
    rewrite Z.shiftr_div_pow2 by lia.
    replace (Z.land u 15) with (u mod 16)
      by (symmetry; apply (Z.land_ones u 4); lia).
    change (2 ^ 4) with 16.
    assert (Hq : 0 <= u / 16 < 16 ^ (Z.of_nat fuel + 1)).
    { split; [apply Z.div_pos; lia|].
      apply Z.div_lt_upper_bound; [lia|].
      replace (Z.of_nat (S fuel) + 1) with (Z.succ (Z.of_nat fuel + 1)) in Hu
        by lia.
      rewrite Z.pow_succ_r in Hu by lia. lia. }
    assert (Hr : 0 <= u mod 16 < 16) by (apply Z.mod_pos_bound; lia).
    destruct (IH (u / 16) (String (digit (u mod 16)) buf) Hq)
      as (ds & Hds & Hval & c & rest & Hc & Hz).
    exists (ds ++ String (digit (u mod 16)) EmptyString)%string. split; [|split].
    + rewrite Hds, append_assoc. reflexivity.
    + intros acc. rewrite hex_value_from_app, Hval. simpl.
      rewrite (digit_value _ Hr). f_equal.
      rewrite len_append. change (len (String (digit (u mod 16)) EmptyString)) with 1.
      rewrite Z.pow_add_r by (pose proof (len_nonneg ds); lia).
      pose proof (Z.div_mod u 16). change (16 ^ 1) with 16. lia.
    + exists c, (rest ++ String (digit (u mod 16)) EmptyString)%string.
      split; [rewrite Hc; reflexivity|].
      intros Hc0. destruct (Hz Hc0) as [Hq0 _].
      assert (u / 16 >= 1) by (apply Z.le_ge, Z.div_le_lower_bound; lia).
      lia.
Qed.

Lemma log2_fuel (u : Z) :
  0 <= u -> 0 <= u < 16 ^ (Z.of_nat (Z.to_nat (Z.log2 u)) + 1).
Proof.
  intros Hu. split; [exact Hu|].
  pose proof (Z.log2_nonneg u) as Hl.
  rewrite Z2Nat.id by exact Hl.
  destruct (Z.eq_dec u 0) as [-> | Hne].
  - simpl. lia.
  - assert (Hpos : 0 < u) by lia.
    pose proof (Z.log2_spec u Hpos) as [_ Hup].
    apply Z.lt_le_trans with (2 ^ Z.succ (Z.log2 u)); [exact Hup|].
    replace (Z.log2 u + 1) with (Z.succ (Z.log2 u)) by lia.
    apply Z.pow_le_mono_l. lia.
Qed.

(** [%X] writes the upper-case, unpadded hexadecimal text of its argument. *)
Lemma fmt_X_upper_hex (v : Z) : upper_hex (fmt_X v) v.
Proof.
  unfold fmt_X, upper_hex.
  set (u := if v <? 0 then - v else v).
  assert (Hu : u = Z.abs v) by (subst u; destruct (v <? 0) eqn:E; lia).
  assert (Hu0 : 0 <= u) by lia.
  destruct (fmtHex_digits _ u EmptyString (log2_fuel u Hu0))
    as (ds & Hds & Hval & c & rest & Hc & Hz).
  rewrite append_nil_r in Hds.
  exists ds. split; [rewrite Hds; reflexivity|]. split.
  - unfold hex_value. rewrite Hc, <- Hc, Hval, <- Hu. f_equal; lia.
  - unfold unpadded. destruct (ascii_dec c "0"%char) as [Hc0 | Hc0].
    + left. destruct (Hz Hc0) as [_ ->]. rewrite Hc, Hc0. reflexivity.
    + right. exists c, rest. auto.
Qed.

(** C7.  The text of a range whose bounds are equal is [#x] and the
    upper-case, unpadded hexadecimal text of the value, without brackets; the
    text of any other range is [[#xB-#xE]] with [B] and [E] the upper-case,
    unpadded hexadecimal texts of its bounds. *)
Theorem Range_String_text (r : Range) :
  exists hb he,
    upper_hex hb (Begin r) /\ upper_hex he (End r) /\
    (Begin r = End r -> Range_String r = ("#x" ++ hb)%string) /\
    (Begin r <> End r ->
     Range_String r = ("[#x" ++ hb ++ "-#x" ++ he ++ "]")%string).
Proof.
  exists (fmt_X (Begin r)), (fmt_X (End r)).
  split; [apply fmt_X_upper_hex|]. split; [apply fmt_X_upper_hex|].
  unfold Range_String. split; intros H.
  - apply Z.eqb_eq in H. rewrite H. reflexivity.
  - apply Z.eqb_neq in H. rewrite H. reflexivity.
Qed.

(** ** The unwrapped line *)

Lemma has_byte_app (c : ascii) (a b : string) :
  has_byte c (a ++ b) = has_byte c a || has_byte c b.
Proof.
  induction a as [|x a IH]; simpl; [reflexivity|].
  rewrite IH, orb_assoc. reflexivity.
Qed.

Lemma hex_digits_no_newline (m : string) (acc v : Z) :
  hex_value_from acc m = Some v -> has_byte "010"%char m = false.
Proof.
  revert acc. induction m as [|c m IH]; intros acc H; simpl in *.
  - reflexivity.
  - destruct (hex_digit_value c) as [d|] eqn:Hd; [|discriminate].
    rewrite (IH _ H), orb_false_r.
    destruct (Ascii.eqb c "010"%char) eqn:E; [|reflexivity].
    apply Ascii.eqb_eq in E. subst c. discriminate.
Qed.

Lemma fmt_X_no_newline (v : Z) : has_byte "010"%char (fmt_X v) = false.
Proof.
  destruct (fmt_X_upper_hex v) as (m & Hm & Hval & _).
  assert (Hno : has_byte "010"%char m = false).
  { unfold hex_value in Hval. destruct m; [discriminate|].
    eapply hex_digits_no_newline; exact Hval. }
  rewrite Hm. destruct (v <? 0); simpl; exact Hno.
Qed.

Lemma Range_String_no_newline (r : Range) :
  has_byte "010"%char (Range_String r) = false.
Proof.
  unfold Range_String. destruct (Begin r =? End r).
  - rewrite has_byte_app, fmt_X_no_newline. reflexivity.
  - rewrite !has_byte_app, !fmt_X_no_newline. reflexivity.
Qed.

Lemma concat_no_newline (rs : list Range) :
  has_byte "010"%char (String.concat " | " (map Range_String rs)) = false.
Proof.
  induction rs as [|r rs IH]; simpl; [reflexivity|].
  destruct rs as [|r' rs]; simpl in *.
  - apply Range_String_no_newline.
  - rewrite has_byte_app, Range_String_no_newline. simpl. exact IH.
Qed.

Lemma Ranges_String_loop_later (rs : Ranges) :
  forall i sb, 0 < i ->
    Ranges_String_loop i rs sb =
    match rs with
    | [] => sb
    | _ => (sb ++ " | " ++ String.concat " | " (map Range_String rs))%string
    end.
Proof.
  induction rs as [|r rest IH]; intros i sb Hi; simpl.
  - reflexivity.
  - assert (E : (i >? 0) = true) by lia. rewrite E.
    rewrite (IH (i + 1)) by lia.
    destruct rest as [|r' rest']; simpl.
    + apply append_assoc.
    + rewrite !append_assoc. reflexivity.
Qed.

Lemma Ranges_String_joined (rs : Ranges) :
  Ranges_String rs = String.concat " | " (map Range_String rs).
Proof.
  unfold Ranges_String. destruct rs as [|r rest]; simpl; [reflexivity|].
  rewrite Ranges_String_loop_later by lia.
  destruct rest; reflexivity.
Qed.

(** C8.  With [highcol <= 0] the printer writes one line and no more: the
    leadup, then the texts of all ranges joined by [ | ] (so with no separator
    after the last), then the line break; the joined text holds no line break
    of its own. *)
Theorem printRanges_unwrapped (fuel : nat) (ranges : list Range)
    (leadup : string) (highCol : Z) :
  highCol <= 0 ->
  printRanges fuel ranges leadup highCol =
    Some (leadup ++ String.concat " | " (map Range_String ranges)
                 ++ newline)%string /\
  has_byte "010"%char (String.concat " | " (map Range_String ranges)) = false.
Proof.
  intros H. split; [|apply concat_no_newline].
  unfold printRanges.
  assert (E : (highCol <=? 0) = true) by lia. rewrite E.
  rewrite Ranges_String_joined. reflexivity.
Qed.

Lemma printRanges_unwrapped_witness :
  printRanges 0 [{| Begin := 0x41; End := 0x5A |}; {| Begin := 0x61; End := 0x61 |}]
              "char ::= " 0 =
    Some ("char ::= " ++
          String.concat " | "
            (map Range_String
               [{| Begin := 0x41; End := 0x5A |}; {| Begin := 0x61; End := 0x61 |}])
          ++ newline)%string /\
  has_byte "010"%char
    (String.concat " | "
       (map Range_String
          [{| Begin := 0x41; End := 0x5A |}; {| Begin := 0x61; End := 0x61 |}]))
    = false.
Proof.
  apply printRanges_unwrapped. lia.
Defined.

Example printRanges_unwrapped_example :
  printRanges 0 [{| Begin := 0x41; End := 0x5A |}; {| Begin := 0x61; End := 0x61 |}]
              "char ::= " (-1) =
  Some ("char ::= [#x41-#x5A] | #x61" ++ newline)%string.
Proof. reflexivity. Qed.

(** ** The wrapped layout *)

Lemma len_Repeat_space (n : Z) : 0 <= n -> len (Repeat_space n) = n.
Proof.
  intros Hn. unfold len, Repeat_space.
  assert (E : forall k, String.length (string_of_list_ascii (repeat " "%char k)) = k).
  { induction k as [|k IH]; simpl; [reflexivity | rewrite IH; reflexivity]. }
  rewrite E. lia.
Qed.

(** What the loop of [printLine] prints: the tokens of the ranges it places,
    each with its space and its [ |] as the position in the slice decides. *)
Lemma printLine_loop_text (rs : list Range) :
  forall n highCol i col out used,
    n = i + Z.of_nat (List.length rs) -> 0 <= i ->
    exists k,
      (k <= List.length rs)%nat /\
      printLine_loop n highCol i rs col out used =
        ((used + k)%nat,
         (out ++ line_text (Z.eqb i 0) (firstn k rs)
                           (Nat.ltb k (List.length rs)))%string).
Proof.
  induction rs as [|r rest IH]; intros n highCol i col out used Hn Hi.
  - exists O. split; [lia|]. simpl. rewrite append_nil_r, Nat.add_0_r.
    reflexivity.
  - cbn [printLine_loop].
    set (str := if i <? n - 1
                then (((if i >? 0 then (EmptyString ++ " ")%string else EmptyString)
                       ++ Range_String r) ++ " |")%string
                else ((if i >? 0 then (EmptyString ++ " ")%string else EmptyString)
                      ++ Range_String r)%string).
    assert (Hstr : str = token (i =? 0) (negb (i <? n - 1)) r).
    { subst str. unfold token.
      destruct (i <? n - 1) eqn:E1; destruct (i >? 0) eqn:E2;
        destruct (i =? 0) eqn:E3; try lia; simpl;
        rewrite ?append_assoc, ?append_nil_r; reflexivity. }
    destruct (col + len str >? highCol) eqn:Hcol.
    + exists O. split; [lia|]. simpl. rewrite append_nil_r, Nat.add_0_r.
      reflexivity.
    + cbn [List.length] in Hn.
      destruct (IH n highCol (i + 1) (col + len str) (out ++ str)%string
                   (S used)) as (k & Hk & Hloop); [lia | lia |].
      exists (S k). split; [simpl; lia|].
      rewrite Hloop. f_equal; [lia|].
      rewrite append_assoc. f_equal.
      assert (E0 : (i + 1 =? 0) = false) by lia. rewrite E0.
      cbn [firstn line_text List.length].
      replace (S k <? S (List.length rest))%nat
        with (k <? List.length rest)%nat by reflexivity.
      rewrite Hstr.
      destruct (firstn k rest) as [|r' l'] eqn:Hfirst.
      * simpl. rewrite append_nil_r. f_equal. f_equal.
        destruct rest as [|r'' rest''].
        -- simpl List.length in *.
           assert (k = O) by (clear - Hk; lia). subst k.
           destruct (i <? n - 1) eqn:A; try reflexivity;
             exfalso; clear - A Hn; lia.
        -- destruct k; [|discriminate]. simpl List.length in *.
           replace (0 <? S (List.length rest''))%nat with true by reflexivity.
           destruct (i <? n - 1) eqn:A; try reflexivity;
             exfalso; clear - A Hn; lia.
      * f_equal. f_equal.
        destruct rest as [|r'' rest''];
          [destruct k; discriminate | simpl List.length in *; clear - Hn; lia].
Qed.

Lemma printLine_text (ranges : list Range) (lowCol highCol : Z) :
  exists k,
    (k <= List.length ranges)%nat /\
    printLine ranges lowCol highCol =
      (k, (line_text true (firstn k ranges) (Nat.ltb k (List.length ranges))
           ++ newline)%string).
Proof.
  unfold printLine.
  destruct (printLine_loop_text ranges (Z.of_nat (List.length ranges)) highCol
              0 lowCol EmptyString O) as (k & Hk & Hloop); [lia | lia |].
  exists k. split; [exact Hk|]. rewrite Hloop. reflexivity.
Qed.

(** The slice that a line leaves untouched stops the loop of [printRanges]
    from ever ending: the next line starts in the same column with the same
    ranges. *)
Lemma printRanges_loop_stuck (highCol : Z) (ranges : list Range) (fuel : nat) :
  forall leadup out,
    ranges <> [] ->
    fst (printLine ranges (len leadup) highCol) = O ->
    printRanges_loop fuel highCol ranges leadup out = None.
Proof.
  induction fuel as [|fuel IH]; intros leadup out Hne H0.
  - destruct ranges; [congruence | reflexivity].
  - destruct ranges as [|r rest] eqn:Er; [congruence|].
    cbn [printRanges_loop].
    destruct (printLine (r :: rest) (len leadup) highCol) as [k line] eqn:Hl.
    simpl in H0. subst k. cbn [skipn].
    apply IH; [discriminate|].
    rewrite len_Repeat_space by apply len_nonneg. rewrite Hl. reflexivity.
Qed.

Lemma concat_nonempty_nil {A} (lines : list (list A)) :
  Forall (fun l => l <> []) lines -> List.concat lines = [] -> lines = [].
Proof.
  intros Hne Hc. destruct lines as [|l lines]; [reflexivity|].
  inversion Hne; subst. simpl in Hc. apply app_eq_nil in Hc.
  destruct Hc; congruence.
Qed.

(** A wrapped output that ends is the text of a layout of the ranges into
    non-empty lines. *)
Lemma printRanges_loop_layout (highCol : Z) (fuel : nat) :
  forall ranges leadup acc out,
    printRanges_loop fuel highCol ranges leadup acc = Some out ->
    exists lines,
      List.concat lines = ranges /\
      Forall (fun l => l <> []) lines /\
      out = (acc ++ layout_text leadup lines)%string.
Proof.
  induction fuel as [|fuel IH]; intros ranges leadup acc out Hrun.
  - destruct ranges; [|discriminate]. injection Hrun as <-.
    exists []. repeat split; [constructor | simpl; rewrite append_nil_r; reflexivity].
  - destruct ranges as [|r rest] eqn:Er.
    + injection Hrun as <-.
      exists []. repeat split; [constructor | simpl; rewrite append_nil_r; reflexivity].
    + rewrite <- Er in *. 
      assert (Hne : ranges <> []) by (rewrite Er; discriminate).
      assert (Hunf : printRanges_loop (S fuel) highCol ranges leadup acc =
                let '(entriesUsed, line) := printLine ranges (len leadup) highCol in
                printRanges_loop fuel highCol (skipn entriesUsed ranges)
                  (Repeat_space (len leadup)) ((acc ++ leadup) ++ line)%string).
      { rewrite Er. reflexivity. }
      rewrite Hunf in Hrun. clear Hunf.
      destruct (printLine_text ranges (len leadup) highCol) as (k & Hk & Hline).
      rewrite Hline in Hrun.
      destruct k as [|k].
      * exfalso. simpl skipn in Hrun.
        rewrite printRanges_loop_stuck in Hrun; [discriminate | exact Hne |].
        rewrite len_Repeat_space by apply len_nonneg. rewrite Hline. reflexivity.
      * destruct (IH _ _ _ _ Hrun) as (lines & Hcat & Hall & Hout).
        exists (firstn (S k) ranges :: lines). split; [|split].
        -- cbn [List.concat]. rewrite Hcat. apply firstn_skipn.
        -- constructor; [|exact Hall]. rewrite Er. discriminate.
        -- assert (Hmore : Nat.ltb (S k) (List.length ranges) =
                           match lines with [] => false | _ => true end).
           { destruct lines as [|l lines'].
             - cbn [List.concat] in Hcat.
               assert (Hlen : List.length (skipn (S k) ranges) = O)
                 by (rewrite <- Hcat; reflexivity).
               rewrite length_skipn in Hlen.
               apply Nat.ltb_ge. lia.
             - pose proof (Forall_inv Hall) as Hl. simpl in Hl.
               assert (Hlen : List.length (skipn (S k) ranges) <> O).
               { rewrite <- Hcat. cbn [List.concat]. rewrite length_app.
                 destruct l; [congruence | simpl; lia]. }
               rewrite length_skipn in Hlen.
               apply Nat.ltb_lt. lia. }
           rewrite Hout, Hmore. cbn [layout_text]. rewrite !append_assoc.
           reflexivity.
Qed.

(** The first range of a line is placed exactly when its token fits. *)
Lemma printLine_first (r : Range) (rest : list Range) (lowCol highCol : Z) :
  fst (printLine (r :: rest) lowCol highCol) = O <->
  highCol < lowCol + len (token true
                            (match rest with [] => true | _ => false end) r).
Proof.
  unfold printLine. cbn [printLine_loop].
  assert (E0 : (0 >? 0) = false) by reflexivity. rewrite E0.
  set (str := if 0 <? Z.of_nat (List.length (r :: rest)) - 1
              then ((EmptyString ++ Range_String r) ++ " |")%string
              else (EmptyString ++ Range_String r)%string).
  assert (Hstr : str = token true (match rest with [] => true | _ => false end) r).
  { subst str. unfold token. destruct rest as [|r' rest'].
    - simpl. rewrite append_nil_r. reflexivity.
    - replace (0 <? Z.of_nat (List.length (r :: r' :: rest')) - 1) with true
        by (symmetry; apply Z.ltb_lt; simpl List.length; lia).
      simpl. reflexivity. }
  clearbody str. subst str.
  destruct (lowCol + len _ >? highCol) eqn:Hcol.
  - simpl. split; [intros _; lia | reflexivity].
  - destruct (printLine_loop_text rest (Z.of_nat (List.length (r :: rest)))
                highCol (0 + 1)
                (lowCol + len (token true
                                 (match rest with [] => true | _ => false end) r))
                (EmptyString ++ token true
                         (match rest with [] => true | _ => false end) r)%string
                1%nat) as (k & _ & Hloop);
      [simpl List.length; lia | lia |].
    rewrite Hloop. simpl. split; [discriminate | intros; lia].
Qed.

(** A first token wider than the budget starves the loop: it never ends. *)
Lemma printRanges_starved (fuel : nat) (r : Range) (rest : list Range)
    (leadup : string) (highCol : Z) :
  0 < highCol ->
  highCol < len leadup + len (token true
                                (match rest with [] => true | _ => false end) r) ->
  printRanges fuel (r :: rest) leadup highCol = None.
Proof.
  intros Hpos Hwide. unfold printRanges.
  assert (E : (highCol <=? 0) = false) by lia. rewrite E.
  apply printRanges_loop_stuck; [discriminate|].
  apply printLine_first. exact Hwide.
Qed.

Lemma len_token_bound (first_on_line last_of_all : bool) (r : Range) :
  len (token first_on_line last_of_all r) <=
  (if first_on_line then 0 else 1) + len (Range_String r) + 2.
Proof.
  unfold token. rewrite !len_append.
  destruct first_on_line, last_of_all; cbn [len String.length Z.of_nat];
    pose proof (len_nonneg (Range_String r)); lia.
Qed.

(** Where every range fits on a line of its own, each line places a range at
    least and the loop ends within as many iterations as there are ranges. *)
Lemma printRanges_loop_ends (highCol : Z) (fuel : nat) :
  forall ranges leadup acc,
    (List.length ranges <= fuel)%nat ->
    (forall r, In r ranges ->
               len leadup + len (Range_String r) + 2 <= highCol) ->
    exists out, printRanges_loop fuel highCol ranges leadup acc = Some out.
Proof.
  induction fuel as [|fuel IH]; intros ranges leadup acc Hlen Hfit.
  - destruct ranges; [eexists; reflexivity | simpl in Hlen; lia].
  - destruct ranges as [|r rest] eqn:Er; [eexists; reflexivity|].
    cbn [printRanges_loop].
    destruct (printLine (r :: rest) (len leadup) highCol) as [k line] eqn:Hl.
    assert (Hk : k <> O).
    { intros ->.
      assert (H0 : fst (printLine (r :: rest) (len leadup) highCol) = O)
        by (rewrite Hl; reflexivity).
      apply printLine_first in H0.
      pose proof (len_token_bound true
                    (match rest with [] => true | _ => false end) r) as Hb.
      cbv iota in Hb.
      specialize (Hfit r (or_introl eq_refl)). lia. }
    apply IH.
    + rewrite length_skipn. simpl List.length in *. lia.
    + intros r' Hin. rewrite len_Repeat_space by apply len_nonneg.
      apply Hfit. rewrite <- (firstn_skipn k (r :: rest)).
      apply in_or_app. right. exact Hin.
Qed.

(** C1, at an input where it fails.  With the leadup [    char ::= ] (13
    columns) and [highcol = 20], the first token [[#x41-#x5A] |] would end in
    column 26: [printLine] places no range on the line and prints the line
    break alone, the slice stays as it is, and the loop of [printRanges]
    does not end, whatever the number of iterations allowed. *)
Theorem printRanges_narrow_budget_never_ends :
  printLine [{| Begin := 0x41; End := 0x5A |}; {| Begin := 0x61; End := 0x7A |}]
            (len "    char ::= ") 20 = (O, newline) /\
  forall fuel,
    printRanges fuel
      [{| Begin := 0x41; End := 0x5A |}; {| Begin := 0x61; End := 0x7A |}]
      "    char ::= " 20 = None.
Proof.
  split; [reflexivity|].
  intros fuel. apply printRanges_starved; [lia | vm_compute; reflexivity].
Qed.

(** C9, as the specification words it, fails: with a budget of 8 columns the
    first line holds the single range [#x41], the last placed on that line,
    and still ends in [ |]. *)
Lemma printLine_last_on_line_keeps_bar :
  let ranges := [{| Begin := 0x41; End := 0x41 |};
                 {| Begin := 0x42; End := 0x42 |}] in
  printLine ranges 0 8 = (1%nat, ("#x41 |" ++ newline)%string) /\
  snd (printLine ranges 0 8) <>
    (line_text_as_specified (firstn (fst (printLine ranges 0 8)) ranges)
     ++ newline)%string /\
  printRanges 2 ranges EmptyString 8 =
    Some ("#x41 |" ++ newline ++ "#x42" ++ newline)%string.
Proof.
  cbv zeta. split; [reflexivity|]. split; [|reflexivity].
  vm_compute. discriminate.
Qed.

(** C9, amended.  In a wrapped output ([highcol > 0]) every line is the text
    of the ranges placed on it, each preceded by a space unless it is the
    first of its line and followed by [ |] unless it is the last range of the
    whole sequence: a line that is not the last one ends in [ |], and nothing
    follows the final range of the final line but the line break.  This holds
    of each line [printLine] prints, and of the whole output of
    [printRanges] when its loop ends: a layout of all the ranges, in order,
    into non-empty lines.  The loop does end, within one iteration per range,
    when each range fits on a line of its own after the leadup. *)
Theorem printRanges_wrapped_layout (ranges : list Range) (leadup : string)
    (highCol : Z) :
  0 < highCol ->
  (forall lowCol, exists k,
      (k <= List.length ranges)%nat /\
      printLine ranges lowCol highCol =
        (k, (line_text true (firstn k ranges)
                       (Nat.ltb k (List.length ranges)) ++ newline)%string)) /\
  (forall fuel out,
      printRanges fuel ranges leadup highCol = Some out ->
      exists lines,
        List.concat lines = ranges /\
        Forall (fun l => l <> []) lines /\
        out = layout_text leadup lines) /\
  ((forall r, In r ranges ->
              len leadup + len (Range_String r) + 2 <= highCol) ->
   exists out,
     printRanges (List.length ranges) ranges leadup highCol = Some out).
Proof.
  intros Hpos.
  assert (E : (highCol <=? 0) = false) by lia.
  split; [|split].
  - intros lowCol. apply printLine_text.
  - intros fuel out Hrun. unfold printRanges in Hrun. rewrite E in Hrun.
    apply printRanges_loop_layout in Hrun.
    destruct Hrun as (lines & Hcat & Hall & Hout).
    exists lines. repeat split; assumption.
  - intros Hfit. unfold printRanges. rewrite E.
    apply printRanges_loop_ends; [lia | exact Hfit].
Qed.

Lemma printRanges_wrapped_layout_witness :
  (forall lowCol, exists k,
      (k <= 3)%nat /\
      printLine [{| Begin := 0x41; End := 0x5A |};
                 {| Begin := 0x5F; End := 0x5F |};
                 {| Begin := 0x61; End := 0x7A |}] lowCol 30 =
        (k, (line_text true
               (firstn k [{| Begin := 0x41; End := 0x5A |};
                          {| Begin := 0x5F; End := 0x5F |};
                          {| Begin := 0x61; End := 0x7A |}])
               (Nat.ltb k 3) ++ newline)%string)) /\
  (forall fuel out,
      printRanges fuel [{| Begin := 0x41; End := 0x5A |};
                        {| Begin := 0x5F; End := 0x5F |};
                        {| Begin := 0x61; End := 0x7A |}] "c ::= " 30 = Some out ->
      exists lines,
        List.concat lines = [{| Begin := 0x41; End := 0x5A |};
                             {| Begin := 0x5F; End := 0x5F |};
                             {| Begin := 0x61; End := 0x7A |}] /\
        Forall (fun l => l <> []) lines /\
        out = layout_text "c ::= " lines) /\
  ((forall r, In r [{| Begin := 0x41; End := 0x5A |};
                    {| Begin := 0x5F; End := 0x5F |};
                    {| Begin := 0x61; End := 0x7A |}] ->
              len "c ::= " + len (Range_String r) + 2 <= 30) ->
   exists out,
     printRanges 3 [{| Begin := 0x41; End := 0x5A |};
                    {| Begin := 0x5F; End := 0x5F |};
                    {| Begin := 0x61; End := 0x7A |}] "c ::= " 30 = Some out).
Proof.
  apply (printRanges_wrapped_layout
           [{| Begin := 0x41; End := 0x5A |};
            {| Begin := 0x5F; End := 0x5F |};
            {| Begin := 0x61; End := 0x7A |}] "c ::= " 30).
  lia.
Defined.

Example printRanges_wrapped_example :
  printRanges 2 [{| Begin := 0x41; End := 0x5A |};
                 {| Begin := 0x5F; End := 0x5F |};
                 {| Begin := 0x61; End := 0x7A |}] "c ::= " 30 =
  Some ("c ::= [#x41-#x5A] | #x5F |" ++ newline ++
        "      [#x61-#x7A]" ++ newline)%string.
Proof. reflexivity. Qed.

(** C6, as stated, fails: with [highcol = 0] the printer writes the leadup
    and a line break although there is no range. *)
Lemma printRanges_empty_unwrapped_prints_leadup :
  query [] (anyMatch []) (anyMatch []) = Returned [] /\
  printRanges 0 [] "    char ::= " 0 = Some ("    char ::= " ++ newline)%string /\
  printRanges 0 [] "    char ::= " 0 <> Some EmptyString.
Proof.
  split; [reflexivity|]. split; [reflexivity|]. discriminate.
Qed.

(** C6, amended.  When no record of the table is matched (so on the empty
    table), [query] returns the empty sequence and does not panic; with
    [highcol > 0] the printer then writes nothing, for every leadup; with
    [highcol <= 0] it writes the leadup and a line break. *)
Theorem nothing_matched_nothing_wrapped (tbl : list Codepoint)
    (inclusive exclusive : list CodepointMatcher)
    (leadup : string) (highCol : Z) (fuel : nat) :
  (forall cp, In cp tbl -> ~ matched inclusive exclusive cp) ->
  query tbl (anyMatch inclusive) (anyMatch exclusive) = Returned [] /\
  (0 < highCol -> printRanges fuel [] leadup highCol = Some EmptyString) /\
  (highCol <= 0 ->
   printRanges fuel [] leadup highCol = Some (leadup ++ newline)%string).
Proof.
  intros Hno. split; [|split].
  - apply query_nothing_selected. intros cp Hin.
    destruct (selects (anyMatch inclusive) (anyMatch exclusive) cp) eqn:E;
      [|reflexivity].
    apply selects_matched in E. destruct (Hno cp Hin E).
  - intros Hpos. unfold printRanges.
    assert (E : (highCol <=? 0) = false) by lia. rewrite E.
    destruct fuel; reflexivity.
  - intros Hneg. unfold printRanges.
    assert (E : (highCol <=? 0) = true) by lia. rewrite E. reflexivity.
Qed.

Lemma nothing_matched_nothing_wrapped_witness :
  query (placeholders 4)
        (anyMatch [fun cp : Codepoint => Codepoint_ cp =? 0x41])
        (anyMatch []) = Returned [] /\
  (0 < 80 -> printRanges 0 [] "    char ::= " 80 = Some EmptyString) /\
  (80 <= 0 ->
   printRanges 0 [] "    char ::= " 80 = Some ("    char ::= " ++ newline)%string).
Proof.
  apply (nothing_matched_nothing_wrapped (placeholders 4)
           [fun cp : Codepoint => Codepoint_ cp =? 0x41] [] "    char ::= " 80 O).
  intros cp Hin [(m & [<- | []] & Hm) _].
  vm_compute in Hin.
  destruct Hin as [<- | [<- | [<- | [<- | []]]]]; discriminate Hm.
Defined.

(** ** The matcher compiler *)

Lemma Split_without (sep : ascii) (s : string) :
  has_byte sep s = false -> Split s sep = [s].
Proof.
  induction s as [|c s IH]; simpl; intros H; [reflexivity|].
  apply orb_false_iff in H. destruct H as [Hc Hs].
  rewrite Hc, (IH Hs). reflexivity.
Qed.

Lemma Split_at (sep : ascii) (a b : string) :
  has_byte sep a = false ->
  Split (a ++ String sep b) sep = a :: Split b sep.
Proof.
  induction a as [|c a IH]; simpl; intros H.
  - rewrite Ascii.eqb_refl. reflexivity.
  - apply orb_false_iff in H. destruct H as [Hc Ha].
    rewrite Hc, (IH Ha). reflexivity.
Qed.



(** A term [cp=v] in the single form: the value goes to [ParseUint], whose
    error becomes a panic. *)
Lemma cp_term_single (v : string) (rest : list string)
    (cpMatchers : list CodepointMatcher) :
  has_byte "="%char v = false -> has_byte "-"%char v = false ->
  parseMatchers_loop (("cp=" ++ v)%string :: rest) cpMatchers =
  match strconv.ParseUint v with
  | inr err => ([], Panicked (PanicNumError err))
  | inl code =>
      parseMatchers_loop rest
        (cpMatchers ++ [fun cp => Codepoint_ cp =? to_rune code])
  end.
Proof.
  intros Heq Hdash. cbn [parseMatchers_loop].
  change (len ("cp=" ++ v) =? 0) with (Z.of_nat (S (S (S (String.length v)))) =? 0).
  replace (Z.of_nat (S (S (S (String.length v)))) =? 0) with false
    by (symmetry; apply Z.eqb_neq; lia).
  change ("cp=" ++ v)%string with ("cp" ++ String "="%char v)%string.
  rewrite Split_at by reflexivity. rewrite (Split_without _ v Heq).
  cbn [String.eqb Ascii.eqb Bool.eqb].
  rewrite (Split_without _ v Hdash). reflexivity.
Qed.

(** A term [cp=l-h] in the range form: both bounds go to [ParseUint], the
    low one first. *)
Lemma cp_term_range (l h : string) (rest : list string)
    (cpMatchers : list CodepointMatcher) :
  has_byte "="%char l = false -> has_byte "="%char h = false ->
  has_byte "-"%char l = false -> has_byte "-"%char h = false ->
  parseMatchers_loop (("cp=" ++ l ++ "-" ++ h)%string :: rest) cpMatchers =
  match strconv.ParseUint l with
  | inr err => ([], Panicked (PanicNumError err))
  | inl lowCode =>
      match strconv.ParseUint h with
      | inr err => ([], Panicked (PanicNumError err))
      | inl hiCode =>
          parseMatchers_loop rest
            (cpMatchers ++
             [fun cp => (Codepoint_ cp >=? to_rune lowCode)
                        && (Codepoint_ cp <=? to_rune hiCode)])
      end
  end.
Proof.
  intros Hel Heh Hdl Hdh. cbn [parseMatchers_loop].
  set (v := (l ++ "-" ++ h)%string).
  assert (Hev : has_byte "="%char v = false).
  { subst v. rewrite !has_byte_app, Hel, Heh. reflexivity. }
  change (len ("cp=" ++ v) =? 0) with (Z.of_nat (S (S (S (String.length v)))) =? 0).
  replace (Z.of_nat (S (S (S (String.length v)))) =? 0) with false
    by (symmetry; apply Z.eqb_neq; lia).
  change ("cp=" ++ v)%string with ("cp" ++ String "="%char v)%string.
  rewrite Split_at by reflexivity. rewrite (Split_without _ v Hev).
  cbn [String.eqb Ascii.eqb Bool.eqb].
  subst v. change (l ++ "-" ++ h)%string with (l ++ String "-"%char h)%string.
  rewrite (Split_at _ l h Hdl), (Split_without _ h Hdh). reflexivity.
Qed.





Example ch_empty_value :
  undecodable EmptyString /\
  exists m, parseMatchers "ch=" = ([], Returned [m]) /\
            forall cp, m cp = true <-> Codepoint_ cp = 0xFFFD.
Proof.
  split; [exists 0; split; [reflexivity | lia]|].
  eexists. split; [reflexivity|]. intros cp. apply Z.eqb_eq.
Qed.

Example ch_invalid_byte :
  undecodable (String "255"%char EmptyString) /\
  exists m, parseMatchers ("ch=" ++ String "255"%char EmptyString) = ([], Returned [m]) /\
            forall cp, m cp = true <-> Codepoint_ cp = 0xFFFD.
Proof.
  split; [exists 1; split; [reflexivity | lia]|].
  eexists. split; [reflexivity|]. intros cp. apply Z.eqb_eq.
Qed.




(** C2, at an input where it fails.  On the arguments [cp=41 foo] the
    compiler reports [foo] and returns from [parseMatchers] with the matcher
    of [cp=41]; [main] goes on, runs the query and prints its ranges after
    the usage help.  On every table the run is that of [cp=41] alone, after
    the diagnostic. *)
Theorem malformed_term_still_queries :
  main (placeholders 128) 1 EmptyString 80 0 0x10ffff ["cp=41"; "foo"] =
    Some {| stdout := [Text "foo: Unknown query param"; UsageHelp;
                       Text ("#x41" ++ newline)];
            ending := Returned tt |} /\
  forall allCodepoints fuel leadup highCol lowCP highCP,
    main allCodepoints fuel leadup highCol lowCP highCP ["cp=41"; "foo"] =
    match main allCodepoints fuel leadup highCol lowCP highCP ["cp=41"] with
    | Some run =>
        Some {| stdout := [Text "foo: Unknown query param"; UsageHelp]
                          ++ stdout run;
                ending := ending run |}
    | None => None
    end.
Proof.
  split; [vm_compute; reflexivity|].
  intros allCodepoints fuel leadup highCol lowCP highCP.
  unfold main.
  change (parseMatchers (joinArgs 0 ["cp=41"; "foo"] EmptyString))
    with ([Text "foo: Unknown query param"; UsageHelp],
          Returned [fun cp : Codepoint => Codepoint_ cp =? to_rune 65]).
  change (parseMatchers (joinArgs 0 ["cp=41"] EmptyString))
    with (@nil Event,
          Returned [fun cp : Codepoint => Codepoint_ cp =? to_rune 65]).
  cbv iota beta.
  destruct (query allCodepoints _ _) as [ranges | p].
  - destruct (printRanges fuel ranges leadup highCol); reflexivity.
  - reflexivity.
Qed.

(* ================================================================== *)
(** * Further properties of the layout printer *)

(** The whole account of the loop of [printLine]: the count, the text, the
    column reached, and why it stopped. *)
Lemma printLine_loop_greedy (rs : list Range) :
  forall n highCol i col out used,
    n = i + Z.of_nat (List.length rs) -> 0 <= i ->
    exists k,
      (k <= List.length rs)%nat /\
      printLine_loop n highCol i rs col out used =
        ((used + k)%nat,
         (out ++ line_text (Z.eqb i 0) (firstn k rs)
                           (Nat.ltb k (List.length rs)))%string) /\
      (k <> O ->
       col + len (line_text (Z.eqb i 0) (firstn k rs)
                            (Nat.ltb k (List.length rs))) <= highCol) /\
      (forall r, nth_error rs k = Some r ->
         highCol <
         col + len (line_text (Z.eqb i 0) (firstn k rs)
                              (Nat.ltb k (List.length rs)))
             + len (token (Z.eqb (i + Z.of_nat k) 0)
                          (negb (i + Z.of_nat k <? n - 1)) r)).
Proof.
  induction rs as [|r rest IH]; intros n highCol i col out used Hn Hi.
  - exists O. split; [lia|]. split; [|split].
    + simpl. rewrite append_nil_r, Nat.add_0_r. reflexivity.
    + congruence.
    + intros r Hr. discriminate.
  - cbn [printLine_loop].
    set (str := if i <? n - 1
                then (((if i >? 0 then (EmptyString ++ " ")%string else EmptyString)
                       ++ Range_String r) ++ " |")%string
                else ((if i >? 0 then (EmptyString ++ " ")%string else EmptyString)
                      ++ Range_String r)%string).
    assert (Hstr : str = token (i =? 0) (negb (i <? n - 1)) r).
    { subst str. unfold token.
      destruct (i <? n - 1) eqn:E1; destruct (i >? 0) eqn:E2;
        destruct (i =? 0) eqn:E3; try lia; simpl;
        rewrite ?append_assoc, ?append_nil_r; reflexivity. }
    clearbody str. subst str.
    destruct (col + len _ >? highCol) eqn:Hcol.
    + exists O. split; [lia|]. split; [|split].
      * simpl. rewrite append_nil_r, Nat.add_0_r. reflexivity.
      * congruence.
      * intros r0 Hr0. injection Hr0 as <-. cbn [firstn line_text].
        change (len EmptyString) with 0.
        replace (i + Z.of_nat 0) with i by lia.
        clear - Hcol. lia.
    + cbn [List.length] in Hn.
      destruct (IH n highCol (i + 1)
                   (col + len (token (i =? 0) (negb (i <? n - 1)) r))
                   (out ++ token (Z.eqb i 0) (negb (Z.ltb i (n - 1))) r)%string
                   (S used)) as (k & Hk & Hloop & Hfit & Hstop); [lia | lia |].
      assert (E0 : (i + 1 =? 0) = false) by lia. rewrite E0 in *.
      assert (Htext :
        line_text (i =? 0) (firstn (S k) (r :: rest))
                  (Nat.ltb (S k) (List.length (r :: rest))) =
        (token (Z.eqb i 0) (negb (Z.ltb i (n - 1))) r
         ++ line_text false (firstn k rest) (Nat.ltb k (List.length rest)))%string).
      { cbn [firstn line_text List.length].
        replace (S k <? S (List.length rest))%nat
          with (k <? List.length rest)%nat by reflexivity.
        destruct (firstn k rest) as [|r' l'] eqn:Hfirst.
        - simpl. rewrite append_nil_r. f_equal. f_equal.
          destruct rest as [|r'' rest''].
          + simpl List.length in *.
            assert (k = O) by (clear - Hk; lia). subst k.
            destruct (i <? n - 1) eqn:A; try reflexivity;
              exfalso; clear - A Hn; lia.
          + destruct k; [|discriminate]. simpl List.length in *.
            replace (0 <? S (List.length rest''))%nat with true by reflexivity.
            destruct (i <? n - 1) eqn:A; try reflexivity;
              exfalso; clear - A Hn; lia.
        - f_equal. f_equal.
          destruct rest as [|r'' rest''];
            [destruct k; discriminate | simpl List.length in *; clear - Hn; lia]. }
      exists (S k). split; [simpl; lia|]. split; [|split].
      * rewrite Hloop, Htext, append_assoc. f_equal. lia.
      * intros _. rewrite Htext, len_append.
        destruct k as [|k'].
        -- cbn [firstn line_text]. change (len EmptyString) with 0.
           clear - Hcol. lia.
        -- specialize (Hfit ltac:(discriminate)). lia.
      * intros r0 Hr0. cbn [nth_error] in Hr0.
        specialize (Hstop r0 Hr0). rewrite Htext, len_append.
        replace (i + Z.of_nat (S k)) with (i + 1 + Z.of_nat k) by lia.
        lia.
Qed.

(** A line that holds a range stays within the budget: the last column
    written, after the [lowCol] columns of the leadup and not counting the
    line break, is at most [highCol]. *)
Theorem printLine_within_budget (ranges : list Range) (lowCol highCol : Z)
    (k : nat) (text : string) :
  printLine ranges lowCol highCol = (k, text) ->
  k <> O ->
  lowCol + (len text - len newline) <= highCol.
Proof.
  intros Hrun Hk. unfold printLine in Hrun.
  destruct (printLine_loop_greedy ranges (Z.of_nat (List.length ranges)) highCol
              0 lowCol EmptyString O) as (k' & _ & Hloop & Hfit & _);
    [lia | lia |].
  rewrite Hloop in Hrun. injection Hrun as <- <-.
  rewrite len_append. simpl append.
  specialize (Hfit Hk). change (0 =? 0) with true in Hfit. lia.
Qed.

Lemma printLine_within_budget_witness :
  0 + (len ("#x41 | #x42 |" ++ newline) - len newline) <= 13.
Proof.
  apply (printLine_within_budget
           [{| Begin := 0x41; End := 0x41 |}; {| Begin := 0x42; End := 0x42 |};
            {| Begin := 0x43; End := 0x43 |}] 0 13 2%nat).
  - reflexivity.
  - discriminate.
Defined.

(** A line is filled greedily: when [printLine] stops before the end of the
    slice, the token of the next range, with its separators, would have ended
    beyond [highCol]. *)
Theorem printLine_stops_when_full (ranges : list Range) (lowCol highCol : Z)
    (k : nat) (text : string) (next : Range) :
  printLine ranges lowCol highCol = (k, text) ->
  nth_error ranges k = Some next ->
  highCol <
  lowCol + (len text - len newline)
  + len (token (Nat.eqb k 0) (Nat.eqb (S k) (List.length ranges)) next).
Proof.
  intros Hrun Hnext. unfold printLine in Hrun.
  destruct (printLine_loop_greedy ranges (Z.of_nat (List.length ranges)) highCol
              0 lowCol EmptyString O) as (k' & Hk' & Hloop & _ & Hstop);
    [lia | lia |].
  rewrite Hloop in Hrun. injection Hrun as <- <-.
  rewrite len_append. simpl append.
  specialize (Hstop next Hnext). change (0 =? 0) with true in Hstop.
  assert (Hlt : (k' < List.length ranges)%nat)
    by (apply nth_error_Some; congruence).
  replace (Nat.eqb k' 0) with (0 + Z.of_nat k' =? 0).
  2:{ destruct k'; [reflexivity|]. simpl Nat.eqb. apply Z.eqb_neq. lia. }
  replace (Nat.eqb (S k') (List.length ranges))
    with (negb (0 + Z.of_nat k' <? Z.of_nat (List.length ranges) - 1)).
  2:{ destruct (Nat.eqb (S k') (List.length ranges)) eqn:E.
      - apply Nat.eqb_eq in E. apply negb_true_iff, Z.ltb_ge. lia.
      - apply Nat.eqb_neq in E. apply negb_false_iff, Z.ltb_lt. lia. }
  lia.
Qed.

Lemma printLine_stops_when_full_witness :
  13 <
  0 + (len ("#x41 | #x42 |" ++ newline) - len newline)
  + len (token (Nat.eqb 2 0) (Nat.eqb 3 3) {| Begin := 0x43; End := 0x43 |}).
Proof.
  apply (printLine_stops_when_full
           [{| Begin := 0x41; End := 0x41 |}; {| Begin := 0x42; End := 0x42 |};
            {| Begin := 0x43; End := 0x43 |}] 0 13 2%nat).
  - reflexivity.
  - reflexivity.
Defined.

(** The text of a line that no range follows is the join of its ranges. *)
Lemma line_text_joined (rs : list Range) :
  rs <> [] ->
  forall first_on_line,
    line_text first_on_line rs false =
    ((if first_on_line then EmptyString else " ")
     ++ String.concat " | " (map Range_String rs))%string.
Proof.
  induction rs as [|r rest IH]; intros Hne first_on_line; [congruence|].
  destruct rest as [|r' rest'].
  - simpl. unfold token. simpl. rewrite append_nil_r. reflexivity.
  - change (line_text first_on_line (r :: r' :: rest') false)
      with (token first_on_line false r
            ++ line_text false (r' :: rest') false)%string.
    rewrite IH by discriminate.
    unfold token. cbn [map String.concat].
    rewrite !append_assoc. reflexivity.
Qed.

Lemma line_text_cons (first_on_line more : bool) (a : Range)
    (l : list Range) :
  line_text first_on_line (a :: l) more =
  (token first_on_line (match l with [] => negb more | _ => false end) a
   ++ line_text false l more)%string.
Proof.
  destruct l as [|b l]; [simpl; rewrite append_nil_r|]; reflexivity.
Qed.

(** The tokens placed so far and the next one are no longer than the whole
    text. *)
Lemma line_text_prefix (l : list Range) :
  forall first_on_line j r0,
    nth_error l j = Some r0 ->
    len (line_text first_on_line (firstn j l) (Nat.ltb j (List.length l)))
    + len (token (match j with O => first_on_line | _ => false end)
                 (Nat.eqb (S j) (List.length l)) r0)
    <= len (line_text first_on_line l false).
Proof.
  induction l as [|a l IH]; intros first_on_line j r0 Hj.
  - destruct j; discriminate.
  - rewrite (line_text_cons first_on_line false a l), len_append.
    destruct j as [|j].
    + injection Hj as <-. cbn [firstn line_text].
      change (len EmptyString) with 0.
      pose proof (len_nonneg (line_text false l false)).
      destruct l; simpl Nat.eqb; simpl negb; lia.
    + cbn [nth_error] in Hj.
      assert (Hj' : (j < List.length l)%nat)
        by (apply nth_error_Some; congruence).
      specialize (IH false j r0 Hj).
      cbn [firstn List.length].
      replace (S j <? S (List.length l))%nat
        with (j <? List.length l)%nat by reflexivity.
      replace (Nat.eqb (S (S j)) (S (List.length l)))
        with (Nat.eqb (S j) (List.length l)) by reflexivity.
      rewrite (line_text_cons first_on_line _ a (firstn j l)), len_append.
      assert (E : (j <? List.length l)%nat = true)
        by (apply Nat.ltb_lt; exact Hj').
      rewrite E in *. simpl negb.
      replace (match firstn j l with [] => false | _ :: _ => false end)
        with false by (destruct (firstn j l); reflexivity).
      replace (match j with O => false | S _ => false end) with false in IH
        by (destruct j; reflexivity).
      destruct l as [|b l']; [simpl in Hj'; lia|]. lia.
Qed.

(** When the whole text fits, the loop of [printLine] places every range. *)
Lemma printLine_loop_all (rs : list Range) :
  forall n highCol i col out used,
    n = i + Z.of_nat (List.length rs) -> 0 <= i ->
    col + len (line_text (Z.eqb i 0) rs false) <= highCol ->
    printLine_loop n highCol i rs col out used =
      ((used + List.length rs)%nat,
       (out ++ line_text (Z.eqb i 0) rs false)%string).
Proof.
  intros n highCol i col out used Hn Hi Hfit.
  destruct (printLine_loop_greedy rs n highCol i col out used Hn Hi)
    as (k & Hk & Hloop & _ & Hstop).
  destruct (Nat.eq_dec k (List.length rs)) as [-> | Hne].
  - rewrite Hloop, firstn_all, Nat.ltb_irrefl. reflexivity.
  - exfalso.
    destruct (nth_error rs k) as [r|] eqn:Hr;
      [|apply nth_error_None in Hr; lia].
    specialize (Hstop r eq_refl).
    pose proof (line_text_prefix rs (Z.eqb i 0) k r Hr) as Hprefix.
    assert (Hlt : (k < List.length rs)%nat) by lia.
    replace (negb (i + Z.of_nat k <? n - 1))
      with (Nat.eqb (S k) (List.length rs)) in Hstop.
    2:{ destruct (Nat.eqb (S k) (List.length rs)) eqn:E.
        - apply Nat.eqb_eq in E. symmetry. apply negb_true_iff, Z.ltb_ge. lia.
        - apply Nat.eqb_neq in E. symmetry. apply negb_false_iff, Z.ltb_lt. lia. }
    replace (i + Z.of_nat k =? 0)
      with (match k with O => Z.eqb i 0 | _ => false end) in Hstop.
    2:{ destruct k; [f_equal; lia|]. symmetry. apply Z.eqb_neq. lia. }
    lia.
Qed.

(** Wrapping changes nothing when everything fits: if the leadup and the
    ranges joined by [ | ] end within [highCol], the wrapped output is the
    single line that the unwrapped mode prints. *)
Theorem printRanges_fitting_is_unwrapped (fuel : nat) (ranges : list Range)
    (leadup : string) (highCol : Z) :
  ranges <> [] ->
  len leadup + len (String.concat " | " (map Range_String ranges)) <= highCol ->
  printRanges (S fuel) ranges leadup highCol =
  printRanges (S fuel) ranges leadup 0.
Proof.
  intros Hne Hfit.
  assert (Hpos : 0 < highCol).
  { destruct ranges as [|r rest]; [congruence|].
    assert (0 < len (String.concat " | " (map Range_String (r :: rest)))).
    { cbn [map String.concat].
      assert (0 < len (Range_String r)).
      { unfold Range_String. destruct (Begin r =? End r);
          rewrite len_append;
          [change (len "#x") with 2 | change (len "[#x") with 3];
          pose proof (len_nonneg (fmt_X (Begin r)));
          pose proof (len_nonneg (fmt_X (Begin r) ++ "-#x" ++ fmt_X (End r) ++ "]"));
          lia. }
      destruct (map Range_String rest); [lia|].
      rewrite len_append.
      pose proof (len_nonneg (" | " ++ String.concat " | " (s :: l))). lia. }
    pose proof (len_nonneg leadup). lia. }
  unfold printRanges.
  replace (highCol <=? 0) with false by (symmetry; apply Z.leb_gt; exact Hpos).
  change (0 <=? 0) with true. cbv iota.
  rewrite Ranges_String_joined.
  destruct ranges as [|r rest] eqn:Er; [congruence|]. rewrite <- Er in *.
  assert (Hunf : printRanges_loop (S fuel) highCol ranges leadup EmptyString =
            let '(entriesUsed, line) := printLine ranges (len leadup) highCol in
            printRanges_loop fuel highCol (skipn entriesUsed ranges)
              (Repeat_space (len leadup))
              ((EmptyString ++ leadup) ++ line)%string).
  { rewrite Er. reflexivity. }
  rewrite Hunf. clear Hunf.
  unfold printLine.
  rewrite printLine_loop_all;
    [| lia | lia | change (0 =? 0) with true;
                   rewrite line_text_joined by exact Hne; exact Hfit].
  change (0 =? 0) with true. rewrite line_text_joined by exact Hne.
  cbn [Nat.add]. rewrite skipn_all.
  destruct fuel; reflexivity.
Qed.

Lemma printRanges_fitting_is_unwrapped_witness :
  printRanges 1 [{| Begin := 0x41; End := 0x5A |}; {| Begin := 0x61; End := 0x7A |}]
              "char ::= " 80 =
  printRanges 1 [{| Begin := 0x41; End := 0x5A |}; {| Begin := 0x61; End := 0x7A |}]
              "char ::= " 0.
Proof.
  apply printRanges_fitting_is_unwrapped.
  - discriminate.
  - vm_compute. discriminate.
Defined.

(* ================================================================== *)
(** * Further properties of the rendering and of [cp=] *)

Lemma hex_digits_without (c : ascii) (m : string) (acc v : Z) :
  hex_digit_value c = None ->
  hex_value_from acc m = Some v -> has_byte c m = false.
Proof.
  intros Hc. revert acc. induction m as [|x m IH]; intros acc H; simpl in *.
  - reflexivity.
  - destruct (hex_digit_value x) as [d|] eqn:Hd; [|discriminate].
    rewrite (IH _ H), orb_false_r.
    destruct (Ascii.eqb x c) eqn:E; [|reflexivity].
    apply Ascii.eqb_eq in E. subst x. congruence.
Qed.

Lemma fmt_X_without (c : ascii) (v : Z) :
  hex_digit_value c = None -> c <> "-"%char ->
  has_byte c (fmt_X v) = false.
Proof.
  intros Hc Hminus.
  destruct (fmt_X_upper_hex v) as (m & Hm & Hval & _).
  assert (Hno : has_byte c m = false).
  { unfold hex_value in Hval. destruct m; [discriminate|].
    eapply hex_digits_without; eassumption. }
  rewrite Hm. destruct (v <? 0); [|exact Hno].
  cbn [has_byte]. rewrite Hno, orb_false_r.
  apply Ascii.eqb_neq. congruence.
Qed.

Lemma fmt_X_unsigned_without_minus (v : Z) :
  0 <= v -> has_byte "-"%char (fmt_X v) = false.
Proof.
  intros Hv.
  destruct (fmt_X_upper_hex v) as (m & Hm & Hval & _).
  replace (v <? 0) with false in Hm by (symmetry; apply Z.ltb_ge; exact Hv).
  rewrite Hm. unfold hex_value in Hval. destruct m; [discriminate|].
  eapply hex_digits_without; [|exact Hval]. reflexivity.
Qed.

Lemma fmt_X_inj (v v' : Z) : fmt_X v = fmt_X v' -> v = v'.
Proof.
  intros H.
  destruct (fmt_X_upper_hex v) as (m & Hm & Hval & _).
  destruct (fmt_X_upper_hex v') as (m' & Hm' & Hval' & _).
  rewrite H, Hm' in Hm. clear H Hm'.
  assert (Hsign : forall s w, hex_value (String "-"%char s) = Some w -> False).
  { intros s w Hs. discriminate Hs. }
  destruct (v <? 0) eqn:E; destruct (v' <? 0) eqn:E'.
  - injection Hm as ->. rewrite Hval in Hval'. injection Hval' as Habs. lia.
  - subst m'. destruct (Hsign _ _ Hval').
  - subst m. destruct (Hsign _ _ Hval).
  - subst m'. rewrite Hval in Hval'. injection Hval' as Habs. lia.
Qed.

Lemma append_cancel_r (c a a' : string) :
  (a ++ c)%string = (a' ++ c)%string -> a = a'.
Proof.
  revert a'. induction a as [|x a IH]; intros a' H.
  - destruct a' as [|y a']; [reflexivity|].
    exfalso. apply (f_equal String.length) in H.
    simpl in H. rewrite length_append in H. lia.
  - destruct a' as [|y a'].
    + exfalso. apply (f_equal String.length) in H.
      simpl in H. rewrite length_append in H. lia.
    + simpl in H. injection H as -> H. f_equal. apply IH. exact H.
Qed.

(** The first occurrence of a byte splits a string in one way only. *)
Lemma split_unique (stop : ascii) (a a' r r' : string) :
  has_byte stop a = false -> has_byte stop a' = false ->
  (a ++ String stop r)%string = (a' ++ String stop r')%string ->
  a = a' /\ r = r'.
Proof.
  revert a'. induction a as [|x a IH]; intros a' Ha Ha' H.
  - destruct a' as [|y a']; simpl in H.
    + injection H as ->. split; reflexivity.
    + injection H as <- _. simpl in Ha'.
      rewrite Ascii.eqb_refl in Ha'. discriminate.
  - destruct a' as [|y a']; simpl in H.
    + injection H as -> _. simpl in Ha.
      rewrite Ascii.eqb_refl in Ha. discriminate.
    + injection H as -> H. simpl in Ha, Ha'.
      apply orb_false_iff in Ha. apply orb_false_iff in Ha'.
      destruct (IH a' (proj2 Ha) (proj2 Ha') H) as [-> ->].
      split; reflexivity.
Qed.

(** The notation is unambiguous: two ranges with the same text are the same
    range. *)
Theorem Range_String_injective (r1 r2 : Range) :
  Range_String r1 = Range_String r2 -> r1 = r2.
Proof.
  destruct r1 as [b1 e1], r2 as [b2 e2]. unfold Range_String. simpl.
  destruct (b1 =? e1) eqn:E1; destruct (b2 =? e2) eqn:E2; intros H.
  - apply Z.eqb_eq in E1, E2. injection H as H.
    apply fmt_X_inj in H. subst. reflexivity.
  - discriminate H.
  - discriminate H.
  - injection H as H.
    assert (H' : ((fmt_X b1 ++ "-") ++ String "#"%char ("x" ++ fmt_X e1 ++ "]")
                  = (fmt_X b2 ++ "-") ++ String "#"%char ("x" ++ fmt_X e2 ++ "]"))%string)
      by (rewrite !append_assoc; exact H).
    apply split_unique in H';
      [| rewrite has_byte_app, fmt_X_without by (reflexivity || discriminate);
         reflexivity ..].
    destruct H' as [Hb He].
    apply append_cancel_r, fmt_X_inj in Hb.
    injection He as He. apply append_cancel_r, fmt_X_inj in He.
    subst. reflexivity.
Qed.

Lemma Range_String_injective_witness :
  {| Begin := 0x41; End := 0x5A |} = {| Begin := 65; End := 90 |}.
Proof.
  apply Range_String_injective. reflexivity.
Defined.

(** ** [ParseUint] reads back what [%X] writes *)

Lemma hex_value_from_ge (m : string) :
  forall acc v, 0 <= acc -> hex_value_from acc m = Some v -> acc <= v.
Proof.
  induction m as [|c m IH]; intros acc v Hacc H; simpl in H.
  - injection H as <-. lia.
  - destruct (hex_digit_value c) as [d|] eqn:Hd; [|discriminate].
    assert (0 <= d).
    { unfold hex_digit_value in Hd.
      destruct ((48 <=? byte c) && (byte c <=? 57)) eqn:A.
      - injection Hd as <-. lia.
      - destruct ((65 <=? byte c) && (byte c <=? 70)) eqn:B; [|discriminate].
        injection Hd as <-. lia. }
    specialize (IH (acc * 16 + d) v ltac:(lia) H). lia.
Qed.

Lemma ParseUint_loop_upper_hex (s0 m : string) :
  forall acc v,
    0 <= acc -> hex_value_from acc m = Some v -> v < 2 ^ 32 ->
    strconv.ParseUint_loop s0 m acc = inl v.
Proof.
  induction m as [|c m IH]; intros acc v Hacc H Hv; simpl in H.
  - injection H as <-. reflexivity.
  - destruct (hex_digit_value c) as [d|] eqn:Hd; [|discriminate].
    pose proof (hex_value_from_ge m (acc * 16 + d) v) as Hge.
    cbn [strconv.ParseUint_loop].
    assert (Hdigit :
      (if (48 <=? byte c) && (byte c <=? 57) then Some (byte c - 48)
       else if (97 <=? strconv.lower (byte c)) && (strconv.lower (byte c) <=? 122)
            then Some (strconv.lower (byte c) - 97 + 10) else None) = Some d
      /\ 0 <= d < 16).
    { unfold hex_digit_value in Hd.
      destruct ((48 <=? byte c) && (byte c <=? 57)) eqn:A.
      - injection Hd as <-. split; [reflexivity | lia].
      - destruct ((65 <=? byte c) && (byte c <=? 70)) eqn:B; [|discriminate].
        injection Hd as <-.
        assert (Hb : byte c = 65 \/ byte c = 66 \/ byte c = 67 \/
                     byte c = 68 \/ byte c = 69 \/ byte c = 70) by lia.
        unfold strconv.lower.
        destruct Hb as [-> | [-> | [-> | [-> | [-> | ->]]]]];
          (split; [reflexivity | lia]). }
    destruct Hdigit as [-> Hd16].
    specialize (Hge ltac:(lia) H).
    replace (d >=? 16) with false by lia.
    change ((2 ^ 64 - 1) / 16 + 1) with (2 ^ 60).
    replace (acc >=? 2 ^ 60) with false by lia.
    rewrite (Z.mod_small (acc * 16)) by lia.
    rewrite (Z.mod_small (acc * 16 + d)) by lia.
    replace (acc * 16 + d <? acc * 16) with false by lia.
    replace (acc * 16 + d >? 2 ^ 32 - 1) with false by lia.
    cbn [orb].
    apply IH; [lia | exact H | exact Hv].
Qed.

Lemma ParseUint_fmt_X (v : Z) :
  0 <= v < 2 ^ 32 -> strconv.ParseUint (fmt_X v) = inl v.
Proof.
  intros Hv.
  destruct (fmt_X_upper_hex v) as (m & Hm & Hval & _).
  replace (v <? 0) with false in Hm by (symmetry; apply Z.ltb_ge; lia).
  rewrite Hm. unfold hex_value in Hval. unfold strconv.ParseUint.
  destruct m as [|c m]; [discriminate|].
  rewrite Z.abs_eq in Hval by lia.
  apply ParseUint_loop_upper_hex; [lia | exact Hval | lia].
Qed.

(** The hexadecimal digits that the printer writes for a codepoint are a
    [cp=] value that selects this codepoint and no other; two of them with a
    [-] between are a [cp=] value that selects the codepoints from the first
    to the second.  Nothing is printed and the remaining terms are read. *)
Theorem cp_reads_printed_hex (b e : Z) (rest : list string)
    (cpMatchers : list CodepointMatcher) :
  0 <= b < 2 ^ 31 -> 0 <= e < 2 ^ 31 ->
  (exists m,
     parseMatchers_loop (("cp=" ++ fmt_X b)%string :: rest) cpMatchers =
     parseMatchers_loop rest (cpMatchers ++ [m]) /\
     forall cp, m cp = true <-> Codepoint_ cp = b) /\
  (exists m,
     parseMatchers_loop (("cp=" ++ fmt_X b ++ "-" ++ fmt_X e)%string :: rest)
                        cpMatchers =
     parseMatchers_loop rest (cpMatchers ++ [m]) /\
     forall cp, m cp = true <-> b <= Codepoint_ cp <= e).
Proof.
  intros Hb He.
  assert (Heq : forall v, has_byte "="%char (fmt_X v) = false)
    by (intros v; apply fmt_X_without; [reflexivity | discriminate]).
  split.
  - eexists. split.
    + rewrite cp_term_single;
        [| apply Heq | apply fmt_X_unsigned_without_minus; lia].
      rewrite ParseUint_fmt_X by lia. reflexivity.
    + intros cp. cbv beta.
      rewrite to_rune_small by (unfold is_rune; lia). apply Z.eqb_eq.
  - eexists. split.
    + rewrite cp_term_range;
        [| apply Heq | apply Heq
         | apply fmt_X_unsigned_without_minus; lia
         | apply fmt_X_unsigned_without_minus; lia].
      rewrite !ParseUint_fmt_X by lia. reflexivity.
    + intros cp. cbv beta.
      rewrite !to_rune_small by (unfold is_rune; lia).
      rewrite andb_true_iff, Z.geb_le, Z.leb_le. lia.
Qed.

Lemma cp_reads_printed_hex_witness :
  (exists m,
     parseMatchers_loop [("cp=" ++ fmt_X 0x41)%string] [] =
     parseMatchers_loop [] ([] ++ [m]) /\
     forall cp, m cp = true <-> Codepoint_ cp = 0x41) /\
  (exists m,
     parseMatchers_loop [("cp=" ++ fmt_X 0x41 ++ "-" ++ fmt_X 0x5A)%string] [] =
     parseMatchers_loop [] ([] ++ [m]) /\
     forall cp, m cp = true <-> 0x41 <= Codepoint_ cp <= 0x5A).
Proof.
  apply (cp_reads_printed_hex 0x41 0x5A [] []); lia.
Defined.

Lemma ParseUint_loop_bound (s0 s : string) :
  forall n v, 0 <= n <= 2 ^ 32 - 1 ->
    strconv.ParseUint_loop s0 s n = inl v -> 0 <= v <= 2 ^ 32 - 1.
Proof.
  induction s as [|c s IH]; intros n v Hn H; cbn [strconv.ParseUint_loop] in H.
  - injection H as <-. exact Hn.
  - destruct (if (48 <=? byte c) && (byte c <=? 57) then Some (byte c - 48)
              else if (97 <=? strconv.lower (byte c))
                      && (strconv.lower (byte c) <=? 122)
                   then Some (strconv.lower (byte c) - 97 + 10) else None)
      as [d|]; [|discriminate].
    destruct (d >=? 16); [discriminate|].
    destruct (n >=? (2 ^ 64 - 1) / 16 + 1); [discriminate|].
    destruct (((n * 16) mod 2 ^ 64 + d) mod 2 ^ 64 <? (n * 16) mod 2 ^ 64) eqn:A;
      [discriminate|].
    destruct (((n * 16) mod 2 ^ 64 + d) mod 2 ^ 64 >? 2 ^ 32 - 1) eqn:B;
      [discriminate|].
    simpl orb in H. apply (IH _ v) in H; [exact H|].
    split; [apply Z.mod_pos_bound; lia | lia].
Qed.

(** The value of [cp=] is parsed as 32 bits without a sign and then converted
    to a [rune]: from 80000000 on it is accepted, no error is reported, and
    the matcher it yields accepts no record whose codepoint is not
    negative. *)
Theorem cp_high_value_selects_nothing (v : string) (n : Z)
    (rest : list string) (cpMatchers : list CodepointMatcher) :
  has_byte "="%char v = false -> has_byte "-"%char v = false ->
  strconv.ParseUint v = inl n -> 2 ^ 31 <= n ->
  exists m,
    parseMatchers_loop (("cp=" ++ v)%string :: rest) cpMatchers =
    parseMatchers_loop rest (cpMatchers ++ [m]) /\
    forall cp, 0 <= Codepoint_ cp -> m cp = false.
Proof.
  intros Heq Hdash Hparse Hn.
  assert (Hbound : 0 <= n <= 2 ^ 32 - 1).
  { unfold strconv.ParseUint in Hparse. destruct v as [|c v]; [discriminate|].
    eapply ParseUint_loop_bound; [|exact Hparse]. lia. }
  eexists. split.
  - rewrite (cp_term_single v rest cpMatchers Heq Hdash), Hparse. reflexivity.
  - intros cp Hcp. cbv beta. apply Z.eqb_neq.
    assert (to_rune n = n - 2 ^ 32).
    { unfold to_rune.
      replace (n + 2 ^ 31) with (n - 2 ^ 31 + 1 * 2 ^ 32) by lia.
      rewrite Z.mod_add by lia. rewrite Z.mod_small; lia. }
    lia.
Qed.

Lemma cp_high_value_selects_nothing_witness :
  exists m,
    parseMatchers_loop ["cp=ffffffff"] [] =
    parseMatchers_loop [] ([] ++ [m]) /\
    forall cp, 0 <= Codepoint_ cp -> m cp = false.
Proof.
  apply (cp_high_value_selects_nothing "ffffffff" (2 ^ 32 - 1) [] []);
    try reflexivity.
  lia.
Defined.

(* ================================================================== *)
(** * Further properties of the matcher compiler *)

Lemma Split_length (sep : ascii) (s : string) :
  List.length (Split s sep) = S (count_byte sep s).
Proof.
  induction s as [|c s IH]; simpl; [reflexivity|].
  destruct (Ascii.eqb c sep); simpl; [rewrite IH; reflexivity|].
  destruct (Split s sep) as [|piece pieces]; simpl in *; [discriminate | exact IH].
Qed.

(** A term that is not one [key=value] pair, or whose key is none of [cat],
    [ch], [cp], ends the compilation: the term is reported with the usage
    help, the terms after it are not read (not even for errors), and the
    matchers compiled before it are returned. *)
Theorem malformed_term_ends_compilation (matcher : string)
    (rest : list string) (cpMatchers : list CodepointMatcher) :
  matcher <> EmptyString ->
  count_byte "="%char matcher <> 1%nat \/
  (exists key value,
      Split matcher "="%char = [key; value] /\
      key <> "cat" /\ key <> "ch" /\ key <> "cp") ->
  parseMatchers_loop (matcher :: rest) cpMatchers =
  ([Text (matcher ++ ": Unknown query param")%string; UsageHelp],
   Returned cpMatchers).
Proof.
  intros Hne Hbad. cbn [parseMatchers_loop].
  replace (len matcher =? 0) with false.
  2:{ symmetry. apply Z.eqb_neq. unfold len.
      destruct matcher; [congruence | simpl; lia]. }
  destruct Hbad as [Hcount | (key & value & Hsplit & Hcat & Hch & Hcp)].
  - pose proof (Split_length "="%char matcher) as Hlen.
    destruct (Split matcher "="%char) as [|a [|b [|c l]]]; try reflexivity.
    simpl in Hlen. congruence.
  - rewrite Hsplit.
    apply String.eqb_neq in Hcat, Hch, Hcp. rewrite Hcat, Hch, Hcp.
    reflexivity.
Qed.

Lemma malformed_term_ends_compilation_witness :
  parseMatchers_loop ["category=L"; "cp=zz"]
                     [fun cp : Codepoint => Codepoint_ cp =? 0x41] =
  ([Text ("category=L" ++ ": Unknown query param")%string; UsageHelp],
   Returned [fun cp : Codepoint => Codepoint_ cp =? 0x41]).
Proof.
  apply malformed_term_ends_compilation.
  - discriminate.
  - right. exists "category", "L". repeat split; discriminate.
Defined.

(** A term [cat=X] selects the records of major category [X]; a term
    [cat=XY] those of major category [X] and minor category [Y]; a [cat=]
    value of any other length is reported as an unknown query param and ends
    the compilation. *)
Theorem cat_term (value : string) (rest : list string)
    (cpMatchers : list CodepointMatcher) :
  has_byte "="%char value = false ->
  (forall X, value = String X EmptyString ->
     exists m,
       parseMatchers_loop (("cat=" ++ value)%string :: rest) cpMatchers =
       parseMatchers_loop rest (cpMatchers ++ [m]) /\
       forall cp, m cp = true <-> MajorCategory cp = X) /\
  (forall X Y, value = String X (String Y EmptyString) ->
     exists m,
       parseMatchers_loop (("cat=" ++ value)%string :: rest) cpMatchers =
       parseMatchers_loop rest (cpMatchers ++ [m]) /\
       forall cp, m cp = true <-> MajorCategory cp = X /\ MinorCategory cp = Y) /\
  (String.length value <> 1%nat -> String.length value <> 2%nat ->
     parseMatchers_loop (("cat=" ++ value)%string :: rest) cpMatchers =
     ([Text (("cat=" ++ value) ++ ": Unknown query param")%string; UsageHelp],
      Returned cpMatchers)).
Proof.
  intros Heq.
  assert (Hstep :
    parseMatchers_loop (("cat=" ++ value)%string :: rest) cpMatchers =
    match value with
    | String majorCategory EmptyString =>
        parseMatchers_loop rest
          (cpMatchers ++
           [fun cp => Ascii.eqb (MajorCategory cp) majorCategory])
    | String majorCategory (String minorCategory EmptyString) =>
        parseMatchers_loop rest
          (cpMatchers ++
           [fun cp => Ascii.eqb (MajorCategory cp) majorCategory
                      && Ascii.eqb (MinorCategory cp) minorCategory])
    | _ => (unknownParam ("cat=" ++ value), Returned cpMatchers)
    end).
  { cbn [parseMatchers_loop].
    change (len ("cat=" ++ value) =? 0)
      with (Z.of_nat (S (S (S (S (String.length value))))) =? 0).
    replace (Z.of_nat (S (S (S (S (String.length value))))) =? 0) with false
      by (symmetry; apply Z.eqb_neq; lia).
    change ("cat=" ++ value)%string with ("cat" ++ String "="%char value)%string.
    rewrite Split_at by reflexivity. rewrite (Split_without _ value Heq).
    cbn [String.eqb Ascii.eqb Bool.eqb]. reflexivity. }
  rewrite Hstep. split; [|split].
  - intros X ->. eexists. split; [reflexivity|].
    intros cp. apply Ascii.eqb_eq.
  - intros X Y ->. eexists. split; [reflexivity|].
    intros cp. cbv beta. rewrite andb_true_iff, !Ascii.eqb_eq. reflexivity.
  - intros H1 H2. destruct value as [|X [|Y [|Z value]]]; simpl in *;
      try congruence; reflexivity.
Qed.

Lemma cat_term_witness :
  (forall X, "Lu" = String X EmptyString ->
     exists m,
       parseMatchers_loop (("cat=" ++ "Lu")%string :: []) [] =
       parseMatchers_loop [] ([] ++ [m]) /\
       forall cp, m cp = true <-> MajorCategory cp = X) /\
  (forall X Y, "Lu" = String X (String Y EmptyString) ->
     exists m,
       parseMatchers_loop (("cat=" ++ "Lu")%string :: []) [] =
       parseMatchers_loop [] ([] ++ [m]) /\
       forall cp, m cp = true <-> MajorCategory cp = X /\ MinorCategory cp = Y) /\
  (String.length "Lu" <> 1%nat -> String.length "Lu" <> 2%nat ->
     parseMatchers_loop (("cat=" ++ "Lu")%string :: []) [] =
     ([Text (("cat=" ++ "Lu") ++ ": Unknown query param")%string; UsageHelp],
      Returned [])).
Proof.
  apply (cat_term "Lu" [] []). reflexivity.
Defined.




(** ** Arguments and terms *)

Lemma joinArgs_later (args : list string) :
  forall i sb, 0 < i ->
    joinArgs i args sb =
    match args with
    | [] => sb
    | _ => (sb ++ " " ++ String.concat " " args)%string
    end.
Proof.
  induction args as [|arg rest IH]; intros i sb Hi; simpl.
  - reflexivity.
  - assert (E : (i >? 0) = true) by lia. rewrite E.
    rewrite (IH (i + 1)) by lia.
    destruct rest as [|arg' rest']; simpl.
    + apply append_assoc.
    + rewrite !append_assoc. reflexivity.
Qed.

Lemma joinArgs_joined (args : list string) :
  joinArgs 0 args EmptyString = String.concat " " args.
Proof.
  destruct args as [|arg rest]; simpl; [reflexivity|].
  rewrite joinArgs_later by lia.
  destruct rest; reflexivity.
Qed.

Lemma Split_joined (args : list string) :
  args <> [] ->
  Forall (fun arg => has_byte " "%char arg = false) args ->
  Split (String.concat " " args) " "%char = args.
Proof.
  induction args as [|arg rest IH]; intros Hne Hall; [congruence|].
  inversion Hall as [|? ? Harg Hrest]; subst.
  destruct rest as [|arg' rest'].
  - simpl. apply Split_without. exact Harg.
  - change (String.concat " " (arg :: arg' :: rest'))
      with (arg ++ String " "%char (String.concat " " (arg' :: rest')))%string.
    rewrite Split_at by exact Harg.
    rewrite IH by (discriminate || exact Hrest). reflexivity.
Qed.

(** Every positional argument without a blank is one term of the query:
    compiling the arguments joined by [main] is running the loop of
    [parseMatchers] over the arguments themselves. *)
Theorem arguments_are_terms (args : list string) :
  Forall (fun arg => has_byte " "%char arg = false) args ->
  parseMatchers (joinArgs 0 args EmptyString) = parseMatchers_loop args [].
Proof.
  intros Hall. unfold parseMatchers. rewrite joinArgs_joined.
  destruct args as [|arg rest]; [reflexivity|].
  rewrite Split_joined by (discriminate || exact Hall). reflexivity.
Qed.

Lemma arguments_are_terms_witness :
  parseMatchers (joinArgs 0 ["cat=L"; "cp=30-39"] EmptyString) =
  parseMatchers_loop ["cat=L"; "cp=30-39"] [].
Proof.
  apply arguments_are_terms.
  repeat constructor.
Defined.

(** Empty terms, which come from a leading or trailing blank and between two
    blanks in a row, are skipped without a word: the compilation of a list of
    terms is that of its non-empty terms. *)
Theorem empty_terms_are_skipped (terms : list string)
    (cpMatchers : list CodepointMatcher) :
  parseMatchers_loop terms cpMatchers =
  parseMatchers_loop
    (filter (fun term => negb (String.eqb term EmptyString)) terms) cpMatchers.
Proof.
  revert cpMatchers. induction terms as [|term rest IH]; intros cpMatchers.
  - reflexivity.
  - cbn [filter]. destruct term as [|c term'].
    + cbn [String.eqb negb]. cbn [parseMatchers_loop].
      change (len EmptyString =? 0) with true. cbv iota. apply IH.
    + cbn [String.eqb negb]. cbn [parseMatchers_loop].
      replace (len (String c term') =? 0) with false
        by (symmetry; apply Z.eqb_neq; unfold len; simpl; lia).
      cbv iota.
      destruct (Split (String c term') "="%char) as [|key [|value [|x l]]];
        try reflexivity.
      destruct (String.eqb key "cat").
      { destruct value as [|X [|Y [|Z value]]]; try reflexivity; apply IH. }
      destruct (String.eqb key "ch").
      { destruct (Split value "-"%char) as [|a [|b l]]; apply IH. }
      destruct (String.eqb key "cp"); [|reflexivity].
      destruct (Split value "-"%char) as [|a [|b l]].
      * destruct (strconv.ParseUint value); [apply IH | reflexivity].
      * destruct (strconv.ParseUint value); [apply IH | reflexivity].
      * destruct (strconv.ParseUint a); [|reflexivity].
        destruct (strconv.ParseUint b); [apply IH | reflexivity].
Qed.

(* ================================================================== *)
(** * Further properties of the scanner *)

(** [query] never panics, whatever the table: the last record is read only
    when a run is open, and a run can be open only if the table has a
    record. *)
Theorem query_never_panics (tbl : list Codepoint)
    (inclusiveMatcher exclusiveMatcher : CodepointMatcher) :
  exists rs, query tbl inclusiveMatcher exclusiveMatcher = Returned rs.
Proof.
  unfold query.
  destruct (Scanner.inRange (Scanner.loop _ _ 0 tbl Scanner.init)) eqn:Hin;
    [|eexists; reflexivity].
  destruct tbl as [|cp tl]; [discriminate Hin|].
  destruct (last_entry_some (cp :: tl)) as [lastcp Hlast]; [discriminate|].
  rewrite Hlast. eexists. reflexivity.
Qed.

(** The scanner looks at the predicates on the records of the table only. *)
Lemma loop_ext (incl excl incl' excl' : CodepointMatcher)
    (tbl : list Codepoint) :
  (forall cp, In cp tbl -> selects incl excl cp = selects incl' excl' cp) ->
  forall i st, Scanner.loop incl excl i tbl st = Scanner.loop incl' excl' i tbl st.
Proof.
  induction tbl as [|cp tl IH]; intros Hsame i st; simpl; [reflexivity|].
  assert (Hstep : Scanner.step incl excl i cp st = Scanner.step incl' excl' i cp st).
  { unfold Scanner.step.
    pose proof (Hsame cp (or_introl eq_refl)) as Hcp. unfold selects in Hcp.
    rewrite Hcp. reflexivity. }
  rewrite Hstep. apply IH. intros c Hc. apply Hsame. right; exact Hc.
Qed.

Lemma query_ext (incl excl incl' excl' : CodepointMatcher)
    (tbl : list Codepoint) :
  (forall cp, In cp tbl -> selects incl excl cp = selects incl' excl' cp) ->
  query tbl incl excl = query tbl incl' excl'.
Proof.
  intros Hsame. unfold query. rewrite (loop_ext _ _ _ _ tbl Hsame). reflexivity.
Qed.

(** The order of the terms of a query and their repetition do not matter:
    two lists of inclusive matchers with the same members give the same
    ranges, on every table and with every exclusion. *)
Theorem query_ignores_order_and_repetition (tbl : list Codepoint)
    (inclusive inclusive' exclusive : list CodepointMatcher) :
  (forall m, In m inclusive <-> In m inclusive') ->
  query tbl (anyMatch inclusive) (anyMatch exclusive) =
  query tbl (anyMatch inclusive') (anyMatch exclusive).
Proof.
  intros Hsame. apply query_ext. intros cp _. unfold selects. f_equal.
  destruct (anyMatch inclusive cp) eqn:E; symmetry.
  - apply anyMatch_true in E. destruct E as (m & Hin & Hm).
    apply anyMatch_true. exists m. split; [apply Hsame; exact Hin | exact Hm].
  - apply anyMatch_false. intros m Hin.
    rewrite anyMatch_false in E. apply E, Hsame, Hin.
Qed.

Lemma query_ignores_order_and_repetition_witness :
  query (placeholders 128)
        (anyMatch [(fun cp => Codepoint_ cp =? 0x41);
                   (fun cp => Codepoint_ cp >=? 0x61)])
        (anyMatch []) =
  query (placeholders 128)
        (anyMatch [(fun cp => Codepoint_ cp >=? 0x61);
                   (fun cp => Codepoint_ cp =? 0x41);
                   (fun cp => Codepoint_ cp >=? 0x61)])
        (anyMatch []).
Proof.
  apply query_ignores_order_and_repetition.
  intros m. simpl. tauto.
Defined.

Lemma loop_all_selected (incl excl : CodepointMatcher) (tbl : list Codepoint) :
  (forall cp, In cp tbl -> selects incl excl cp = true) ->
  forall i st, tbl <> [] ->
    Scanner.loop incl excl i tbl st =
    {| Scanner.inRange := true;
       Scanner.startRange := if Scanner.inRange st then Scanner.startRange st
                             else to_rune (Z.of_nat i);
       Scanner.ranges := Scanner.ranges st |}.
Proof.
  induction tbl as [|cp tl IH]; intros Hall i st Hne; [congruence|].
  cbn [Scanner.loop].
  assert (Hstep : Scanner.step incl excl i cp st =
            {| Scanner.inRange := true;
               Scanner.startRange := if Scanner.inRange st then Scanner.startRange st
                                     else to_rune (Z.of_nat i);
               Scanner.ranges := Scanner.ranges st |}).
  { unfold Scanner.step.
    pose proof (Hall cp (or_introl eq_refl)) as Hcp. unfold selects in Hcp.
    rewrite Hcp. reflexivity. }
  rewrite Hstep. destruct tl as [|cp' tl'].
  - reflexivity.
  - rewrite IH; [reflexivity | | discriminate].
    intros c Hc. apply Hall. right; exact Hc.
Qed.

(** Positions and values.  [Begin] is the position of a record in the table,
    the [End] of a run that reaches the end of the table is the codepoint
    stored in the last record: when every record is selected, the one range
    goes from 0 to the last codepoint, whatever codepoint the first record
    holds. *)
Theorem query_all_selected (tbl : list Codepoint)
    (inclusiveMatcher exclusiveMatcher : CodepointMatcher)
    (lastcp : Codepoint) :
  last_entry tbl = Some lastcp ->
  (forall cp, In cp tbl ->
              selects inclusiveMatcher exclusiveMatcher cp = true) ->
  query tbl inclusiveMatcher exclusiveMatcher =
  Returned [{| Begin := 0; End := Codepoint_ lastcp |}].
Proof.
  intros Hlast Hall. unfold query.
  assert (Hne : tbl <> []) by (intros ->; discriminate Hlast).
  rewrite (loop_all_selected _ _ tbl Hall 0%nat Scanner.init Hne).
  cbn [Scanner.inRange Scanner.startRange Scanner.ranges Scanner.init].
  rewrite Hlast. reflexivity.
Qed.

Lemma query_all_selected_witness :
  query [{| Codepoint_ := 0x41; MajorCategory := "L"%char; MinorCategory := "u"%char |};
         {| Codepoint_ := 0x42; MajorCategory := "L"%char; MinorCategory := "u"%char |}]
        (fun cp => Ascii.eqb (MajorCategory cp) "L"%char) (fun _ => false) =
  Returned [{| Begin := 0; End := Codepoint_
       {| Codepoint_ := 0x42; MajorCategory := "L"%char; MinorCategory := "u"%char |} |}].
Proof.
  apply query_all_selected.
  - reflexivity.
  - intros cp [<- | [<- | []]]; reflexivity.
Defined.

(** ** The bounds of [-range] *)

Lemma unrestricted_nth (tbl : list Codepoint) (v : Z) :
  unrestricted_table tbl ->
  0 <= v < Z.of_nat (List.length tbl) ->
  exists cp, nth_error tbl (Z.to_nat v) = Some cp /\ Codepoint_ cp = v.
Proof.
  intros [_ Hpos] Hv.
  destruct (nth_error tbl (Z.to_nat v)) as [cp|] eqn:E.
  - exists cp. split; [reflexivity|]. rewrite (Hpos _ _ E). lia.
  - apply nth_error_None in E. lia.
Qed.

(** On the unrestricted table the ranges stay within the table. *)
Lemma query_within_table (tbl : list Codepoint)
    (inclusiveMatcher exclusiveMatcher : CodepointMatcher) (rs : Ranges) :
  unrestricted_table tbl ->
  query tbl inclusiveMatcher exclusiveMatcher = Returned rs ->
  Forall (fun r => 0 <= Begin r <= End r /\
                   End r < Z.of_nat (List.length tbl)) rs.
Proof.
  intros Hun Hq.
  pose proof (unrestricted_ordered tbl Hun) as Hord.
  pose proof (ordered_table_length tbl Hord) as Hlen.
  assert (Hlen' : Z.of_nat (List.length tbl) <= 2 ^ 31) by lia.
  pose proof (scan_inv_table inclusiveMatcher exclusiveMatcher tbl Hlen')
    as [Hf Ho Hc _ _].
  unfold query in Hq.
  set (st := Scanner.loop inclusiveMatcher exclusiveMatcher 0 tbl Scanner.init)
    in *.
  unfold frontier in *.
  destruct (Scanner.inRange st) eqn:Hin.
  - destruct (Ho eq_refl) as [Hlt _].
    destruct (last_entry tbl) as [lastcp|] eqn:Hlast; [|discriminate].
    injection Hq as <-.
    destruct Hun as [_ Hpos]. unfold last_entry in Hlast.
    pose proof (Hpos _ _ Hlast) as Hval.
    apply Forall_app. split.
    + eapply Forall_impl; [|exact Hc]. simpl. intros r Hr. lia.
    + constructor; [simpl; lia | constructor].
  - injection Hq as <-.
    eapply Forall_impl; [|exact Hc]. simpl. intros r Hr. lia.
Qed.

(** With [-range=low-high] every range printed lies within the bounds, both
    included, whatever the terms of the query select. *)
Theorem range_bounds_respected (tbl : list Codepoint)
    (inclusive : list CodepointMatcher) (lowCP highCP : Z) (rs : Ranges) :
  unrestricted_table tbl ->
  0 <= lowCP < 2 ^ 31 -> 0 <= highCP ->
  query tbl (anyMatch inclusive) (anyMatch (exclusiveMatchers lowCP highCP))
    = Returned rs ->
  Forall (fun r => lowCP <= Begin r /\ End r <= highCP) rs.
Proof.
  intros Hun Hlow Hhigh Hq.
  pose proof (query_within_table _ _ _ _ Hun Hq) as Hin.
  pose proof (unrestricted_ordered tbl Hun) as Hord.
  pose proof (ordered_table_length tbl Hord) as Hlen.
  destruct (query_scan tbl (anyMatch inclusive)
              (anyMatch (exclusiveMatchers lowCP highCP)) Hord)
    as (rs' & Hq' & _ & _ & Hcov).
  rewrite Hq in Hq'. injection Hq' as <-.
  apply Forall_forall. intros r Hr.
  rewrite Forall_forall in Hin. specialize (Hin r Hr).
  assert (Hkept : forall v, Begin r <= v <= End r ->
            forall cp, nth_error tbl (Z.to_nat v) = Some cp ->
            anyMatch (exclusiveMatchers lowCP highCP) cp = false).
  { intros v Hv cp Hn.
    assert (Hc : covers rs (Z.of_nat (Z.to_nat v))).
    { exists r. split; [exact Hr|]. rewrite Z2Nat.id by lia. exact Hv. }
    apply (Hcov _ _ Hn) in Hc. unfold selects in Hc.
    apply andb_true_iff in Hc. destruct Hc as [_ Hc].
    apply negb_true_iff in Hc. exact Hc. }
  destruct (unrestricted_nth tbl (Begin r) Hun) as (cpb & Hnb & Hvb); [lia|].
  destruct (unrestricted_nth tbl (End r) Hun) as (cpe & Hne & Hve); [lia|].
  pose proof (Hkept (Begin r) ltac:(lia) cpb Hnb) as Hb.
  pose proof (Hkept (End r) ltac:(lia) cpe Hne) as He.
  unfold exclusiveMatchers in Hb, He.
  destruct ((lowCP >? 0) || (highCP <? 0x10ffff)) eqn:Hcond.
  - cbn [anyMatch] in Hb, He.
    destruct ((Codepoint_ cpb <? to_rune lowCP)
              || (Codepoint_ cpb >? to_rune highCP)) eqn:Eb; [discriminate|].
    destruct ((Codepoint_ cpe <? to_rune lowCP)
              || (Codepoint_ cpe >? to_rune highCP)) eqn:Ee; [discriminate|].
    apply orb_false_iff in Eb, Ee.
    rewrite (to_rune_small lowCP) in * by (unfold is_rune; lia).
    split; [lia|].
    destruct (Z.lt_ge_cases highCP (2 ^ 31)) as [Hsmall | Hbig].
    + rewrite (to_rune_small highCP) in * by (unfold is_rune; lia). lia.
    + lia.
  - apply orb_false_iff in Hcond. lia.
Qed.

Lemma range_bounds_respected_witness :
  Forall (fun r => 0x30 <= Begin r /\ End r <= 0x39)
         [{| Begin := 0x30; End := 0x39 |}].
Proof.
  apply (range_bounds_respected (placeholders 128)
           [fun cp => Codepoint_ cp <? 0x60] 0x30 0x39).
  - exact placeholder_table_unrestricted.
  - lia.
  - lia.
  - vm_compute. reflexivity.
Defined.

(** The bounds of [-range] are read as 32 bits without a sign and converted
    to [rune]s.  An upper bound of 0x80000000 or more becomes negative: with
    a lower bound of 0 no exclusion is set up at all, with a positive lower
    bound every codepoint is excluded. *)
Theorem range_upper_bound_wraps (lowCP highCP : Z) :
  2 ^ 31 <= highCP < 2 ^ 32 ->
  (lowCP = 0 ->
   forall cp, anyMatch (exclusiveMatchers lowCP highCP) cp = false) /\
  (0 < lowCP ->
   forall cp, 0 <= Codepoint_ cp ->
              anyMatch (exclusiveMatchers lowCP highCP) cp = true).
Proof.
  intros Hhigh. unfold exclusiveMatchers. split.
  - intros -> cp.
    replace ((0 >? 0) || (highCP <? 0x10ffff)) with false; [reflexivity|].
    symmetry. apply orb_false_iff. split; lia.
  - intros Hlow cp Hcp.
    replace ((lowCP >? 0) || (highCP <? 0x10ffff)) with true
      by (symmetry; apply orb_true_iff; left; lia).
    cbn [anyMatch].
    assert (to_rune highCP = highCP - 2 ^ 32).
    { unfold to_rune.
      replace (highCP + 2 ^ 31) with (highCP - 2 ^ 31 + 1 * 2 ^ 32) by lia.
      rewrite Z.mod_add by lia. rewrite Z.mod_small; lia. }
    replace (Codepoint_ cp >? to_rune highCP) with true by lia.
    rewrite orb_true_r. reflexivity.
Qed.

Lemma range_upper_bound_wraps_witness :
  (1 = 0 ->
   forall cp, anyMatch (exclusiveMatchers 1 0xffffffff) cp = false) /\
  (0 < 1 ->
   forall cp, 0 <= Codepoint_ cp ->
              anyMatch (exclusiveMatchers 1 0xffffffff) cp = true).
Proof.
  apply (range_upper_bound_wraps 1 0xffffffff). lia.
Defined.

(* ================================================================== *)
(** * The generation mode *)

(** ** [fixup] *)

Lemma fixup_Codepoint (l : Loaded.LoadedCodepoint) :
  Loaded.Codepoint_ (Loaded.fixup l) = Loaded.Codepoint_ l.
Proof.
  unfold Loaded.fixup.
  destruct ((byte (Loaded.MinorCategory l) <? 97)
            || (byte (Loaded.MinorCategory l) >? 122));
    cbn [Loaded.MajorCategory Loaded.Codepoint_];
    destruct ((byte (Loaded.MajorCategory l) <? 65)
              || (byte (Loaded.MajorCategory l) >? 90)); reflexivity.
Qed.

Lemma fixup_categories_ok (l : Loaded.LoadedCodepoint) :
  major_ok (Loaded.MajorCategory (Loaded.fixup l)) /\
  minor_ok (Loaded.MinorCategory (Loaded.fixup l)).
Proof.
  unfold Loaded.fixup, major_ok, minor_ok.
  destruct ((byte (Loaded.MinorCategory l) <? 97)
            || (byte (Loaded.MinorCategory l) >? 122)) eqn:Emin;
    cbn [Loaded.MajorCategory Loaded.MinorCategory];
    destruct ((byte (Loaded.MajorCategory l) <? 65)
              || (byte (Loaded.MajorCategory l) >? 90)) eqn:Emaj;
    cbn [Loaded.MajorCategory Loaded.MinorCategory];
    try apply orb_false_iff in Emin; try apply orb_false_iff in Emaj;
    split; (left; reflexivity) || (right; lia).
Qed.

(** [fixup] leaves a major category in [A-Z] and a minor category in [a-z]
    as they are and replaces any other byte by a blank; it touches no other
    field.  Afterwards both categories are a letter of the right case or a
    blank, and applying it twice changes nothing more. *)
Theorem fixup_normalises (l : Loaded.LoadedCodepoint) :
  (65 <= byte (Loaded.MajorCategory l) <= 90 ->
   Loaded.MajorCategory (Loaded.fixup l) = Loaded.MajorCategory l) /\
  (~ 65 <= byte (Loaded.MajorCategory l) <= 90 ->
   Loaded.MajorCategory (Loaded.fixup l) = " "%char) /\
  (97 <= byte (Loaded.MinorCategory l) <= 122 ->
   Loaded.MinorCategory (Loaded.fixup l) = Loaded.MinorCategory l) /\
  (~ 97 <= byte (Loaded.MinorCategory l) <= 122 ->
   Loaded.MinorCategory (Loaded.fixup l) = " "%char) /\
  (Loaded.CodepointStr (Loaded.fixup l) = Loaded.CodepointStr l /\
   Loaded.FirstCPStr (Loaded.fixup l) = Loaded.FirstCPStr l /\
   Loaded.LastCPStr (Loaded.fixup l) = Loaded.LastCPStr l /\
   Loaded.Category (Loaded.fixup l) = Loaded.Category l /\
   Loaded.Codepoint_ (Loaded.fixup l) = Loaded.Codepoint_ l) /\
  major_ok (Loaded.MajorCategory (Loaded.fixup l)) /\
  minor_ok (Loaded.MinorCategory (Loaded.fixup l)) /\
  Loaded.fixup (Loaded.fixup l) = Loaded.fixup l.
Proof.
  destruct l as [cs fs ls cat major minor c].
  unfold Loaded.fixup, major_ok, minor_ok.
  cbn [Loaded.MajorCategory Loaded.MinorCategory Loaded.CodepointStr
       Loaded.FirstCPStr Loaded.LastCPStr Loaded.Category Loaded.Codepoint_].
  destruct ((byte minor <? 97) || (byte minor >? 122)) eqn:Emin;
    cbn [Loaded.MajorCategory Loaded.MinorCategory Loaded.CodepointStr
         Loaded.FirstCPStr Loaded.LastCPStr Loaded.Category Loaded.Codepoint_];
    destruct ((byte major <? 65) || (byte major >? 90)) eqn:Emaj;
    cbn [Loaded.MajorCategory Loaded.MinorCategory Loaded.CodepointStr
         Loaded.FirstCPStr Loaded.LastCPStr Loaded.Category Loaded.Codepoint_];
    rewrite ?Emin, ?Emaj;
    change ((byte " " <? 97) || (byte " " >? 122)) with true;
    change ((byte " " <? 65) || (byte " " >? 90)) with true;
    cbn [Loaded.MajorCategory Loaded.MinorCategory Loaded.CodepointStr
         Loaded.FirstCPStr Loaded.LastCPStr Loaded.Category Loaded.Codepoint_];
    rewrite ?Emin, ?Emaj;
    try apply orb_true_iff in Emin; try apply orb_true_iff in Emaj;
    try apply orb_false_iff in Emin; try apply orb_false_iff in Emaj;
    repeat split; try reflexivity; try (left; reflexivity);
    try (right; lia); try (intros; exfalso; lia).
Qed.

(** ** The table of [generateCode] *)

Lemma length_placeholders (n : nat) : List.length (placeholders n) = n.
Proof. unfold placeholders. rewrite length_map, length_seq. reflexivity. Qed.

Lemma nth_error_placeholders (n i : nat) :
  (i < n)%nat ->
  nth_error (placeholders n) i =
  Some {| Codepoint_ := to_rune (Z.of_nat i);
          MajorCategory := " "%char; MinorCategory := " "%char |}.
Proof.
  intros Hi. unfold placeholders. rewrite nth_error_map.
  assert (E : nth_error (seq 0 n) i = Some i).
  { rewrite (nth_error_nth' _ 0%nat) by (rewrite length_seq; exact Hi).
    rewrite seq_nth by exact Hi. reflexivity. }
  rewrite E. reflexivity.
Qed.

Lemma length_set_index {A} (l : list A) (i : nat) (a : A) :
  List.length (set_index l i a) = List.length l.
Proof.
  revert i. induction l as [|x l IH]; intros i; [reflexivity|].
  destruct i; simpl; [reflexivity | rewrite IH; reflexivity].
Qed.

Lemma nth_error_set_index {A} (l : list A) (i j : nat) (a : A) :
  (i < List.length l)%nat ->
  nth_error (set_index l i a) j =
  if Nat.eqb i j then Some a else nth_error l j.
Proof.
  revert i j. induction l as [|x l IH]; intros i j Hi; [simpl in Hi; lia|].
  destruct i as [|i], j as [|j]; simpl; try reflexivity.
  apply IH. simpl in Hi. lia.
Qed.

Lemma find_snoc {A} (p : A -> bool) (l : list A) (x : A) :
  find p (l ++ [x]) =
  match find p l with
  | Some y => Some y
  | None => if p x then Some x else None
  end.
Proof.
  induction l as [|y l IH]; simpl; [reflexivity|].
  destruct (p y); [reflexivity | exact IH].
Qed.

(** The record that the table holds at an index after the loop. *)
Lemma generateCode_fill_lookup (loaded : list Loaded.LoadedCodepoint) :
  forall codepoints,
    Forall (fun l => 0 <= Loaded.Codepoint_ l
                     < Z.of_nat (List.length codepoints)) loaded ->
    exists filled,
      generateCode_fill loaded codepoints = inl filled /\
      List.length filled = List.length codepoints /\
      forall i,
        nth_error filled i =
        match find (fun l => Loaded.Codepoint_ l =? Z.of_nat i)
                   (rev loaded) with
        | Some l =>
            Some {| Codepoint_ := Z.of_nat i;
                    MajorCategory := Loaded.MajorCategory (Loaded.fixup l);
                    MinorCategory := Loaded.MinorCategory (Loaded.fixup l) |}
        | None => nth_error codepoints i
        end.
Proof.
  induction loaded as [|x rest IH]; intros codepoints Hall.
  - exists codepoints. repeat split.
  - inversion Hall as [|? ? Hx Hrest]; subst.
    cbn [generateCode_fill]. rewrite fixup_Codepoint.
    replace ((0 <=? Loaded.Codepoint_ x)
             && (Loaded.Codepoint_ x <? Z.of_nat (List.length codepoints)))
      with true by (symmetry; apply andb_true_iff; split; lia).
    set (stored := set_index codepoints (Z.to_nat (Loaded.Codepoint_ x)) _).
    assert (Hlen : List.length stored = List.length codepoints)
      by apply length_set_index.
    destruct (IH stored) as (filled & Hfill & Hflen & Hget).
    { rewrite Hlen. exact Hrest. }
    exists filled. split; [exact Hfill|]. split; [congruence|].
    intros i. rewrite (Hget i). cbn [rev]. rewrite find_snoc.
    destruct (find (fun l => Loaded.Codepoint_ l =? Z.of_nat i) (rev rest))
      as [y|] eqn:Hfind; [reflexivity|].
    subst stored. rewrite nth_error_set_index by lia.
    destruct (Loaded.Codepoint_ x =? Z.of_nat i) eqn:E.
    + apply Z.eqb_eq in E.
      replace (Nat.eqb (Z.to_nat (Loaded.Codepoint_ x)) i) with true
        by (symmetry; apply Nat.eqb_eq; lia).
      rewrite E. reflexivity.
    + apply Z.eqb_neq in E.
      replace (Nat.eqb (Z.to_nat (Loaded.Codepoint_ x)) i) with false
        by (symmetry; apply Nat.eqb_neq; lia).
      reflexivity.
Qed.

(** The whole account of the table, for loaded codepoints that are scalar
    values and bounds in order. *)
Lemma generateCode_table_account (lowCP highCP : Z)
    (loaded : list Loaded.LoadedCodepoint) :
  Forall (fun l => 0 <= Loaded.Codepoint_ l < 0x110000) loaded ->
  0 <= lowCP <= highCP -> lowCP <= 0x110000 ->
  exists tbl,
    generateCode_table lowCP highCP loaded = inl tbl /\
    Z.of_nat (List.length tbl) = Z.min highCP 0x110000 - lowCP /\
    forall i cp, nth_error tbl i = Some cp ->
      Codepoint_ cp = lowCP + Z.of_nat i /\
      (MajorCategory cp, MinorCategory cp) =
        loaded_categories loaded (lowCP + Z.of_nat i).
Proof.
  intros Hall Hbounds Hlow. unfold generateCode_table.
  set (n := Z.to_nat 0x110000).
  assert (Hn : Z.of_nat n = 0x110000) by (subst n; apply Z2Nat.id; lia).
  destruct (generateCode_fill_lookup loaded (placeholders n))
    as (filled & Hfill & Hlen & Hget).
  { rewrite length_placeholders, Hn. exact Hall. }
  rewrite Hfill. rewrite length_placeholders in Hlen.
  set (cut := if highCP <? Z.of_nat (List.length filled)
              then firstn (Z.to_nat highCP) filled else filled).
  assert (Hcutlen : Z.of_nat (List.length cut) = Z.min highCP 0x110000).
  { subst cut. rewrite Hlen, Hn.
    destruct (highCP <? 0x110000) eqn:E.
    - rewrite length_firstn, Hlen. lia.
    - rewrite Hlen. lia. }
  assert (Hcutget : forall j, (j < List.length cut)%nat ->
                              nth_error cut j = nth_error filled j).
  { intros j Hj. subst cut.
    destruct (highCP <? Z.of_nat (List.length filled)); [|reflexivity].
    rewrite length_firstn in Hj. rewrite nth_error_firstn.
    replace (Nat.ltb j (Z.to_nat highCP)) with true
      by (symmetry; apply Nat.ltb_lt; lia).
    reflexivity. }
  assert (Hentry : forall j cp, (j < List.length cut)%nat ->
            nth_error cut j = Some cp ->
            Codepoint_ cp = Z.of_nat j /\
            (MajorCategory cp, MinorCategory cp)
              = loaded_categories loaded (Z.of_nat j)).
  { intros j cp Hj Hcp. rewrite (Hcutget j Hj), (Hget j) in Hcp.
    unfold loaded_categories.
    destruct (find (fun l => Loaded.Codepoint_ l =? Z.of_nat j) (rev loaded))
      as [z|] eqn:Hfind.
    - injection Hcp as <-. split; reflexivity.
    - rewrite nth_error_placeholders in Hcp by lia.
      injection Hcp as <-. cbn [Codepoint_ MajorCategory MinorCategory].
      split; [|reflexivity].
      apply to_rune_small. unfold is_rune. lia. }
  destruct (lowCP >? 0) eqn:Epos.
  - replace (lowCP <=? Z.of_nat (List.length cut)) with true by lia.
    eexists. split; [reflexivity|]. split.
    + rewrite length_skipn. lia.
    + intros i cp Hcp. rewrite nth_error_skipn in Hcp.
      assert (Hj : (Z.to_nat lowCP + i < List.length cut)%nat)
        by (apply nth_error_Some; congruence).
      destruct (Hentry _ _ Hj Hcp) as [Hc Hcat].
      replace (lowCP + Z.of_nat i) with (Z.of_nat (Z.to_nat lowCP + i)) by lia.
      split; assumption.
  - assert (lowCP = 0) by lia. subst lowCP.
    exists cut. split; [reflexivity|]. split; [lia|].
    intros i cp Hcp.
    assert (Hj : (i < List.length cut)%nat)
      by (apply nth_error_Some; congruence).
    apply (Hentry _ _ Hj Hcp).
Qed.

(** The table that [generateCode] writes.  For loaded codepoints that are
    scalar values and bounds [lowCP <= highCP], it has one record per
    codepoint from [lowCP] up to, but not including, [highCP] (at most up to
    0x10FFFF): the record of codepoint [c] is at position [c - lowCP] and
    carries the categories of the last loaded codepoint of this value, fixed
    up, or blanks when none was loaded. *)
Theorem generateCode_table_contents (lowCP highCP : Z)
    (loaded : list Loaded.LoadedCodepoint) :
  Forall (fun l => 0 <= Loaded.Codepoint_ l < 0x110000) loaded ->
  0 <= lowCP <= highCP -> lowCP <= 0x110000 ->
  exists tbl,
    generateCode_table lowCP highCP loaded = inl tbl /\
    Z.of_nat (List.length tbl) = Z.min highCP 0x110000 - lowCP /\
    forall c, lowCP <= c < Z.min highCP 0x110000 ->
      nth_error tbl (Z.to_nat (c - lowCP)) =
      Some {| Codepoint_ := c;
              MajorCategory := fst (loaded_categories loaded c);
              MinorCategory := snd (loaded_categories loaded c) |}.
Proof.
  intros Hall Hbounds Hlow.
  destruct (generateCode_table_account lowCP highCP loaded Hall Hbounds Hlow)
    as (tbl & Hgen & Hlen & Hget).
  exists tbl. split; [exact Hgen|]. split; [exact Hlen|].
  intros c Hc.
  destruct (nth_error tbl (Z.to_nat (c - lowCP))) as [cp|] eqn:E.
  - destruct (Hget _ cp E) as [Hv Hcat].
    replace (lowCP + Z.of_nat (Z.to_nat (c - lowCP))) with c in * by lia.
    rewrite <- Hcat. destruct cp as [v major minor].
    cbn [Codepoint_ MajorCategory MinorCategory fst snd] in *.
    subst v. reflexivity.
  - apply nth_error_None in E. lia.
Qed.

Lemma generateCode_table_contents_witness :
  exists tbl,
    generateCode_table 0x41 0x5B
      [{| Loaded.CodepointStr := "0041"; Loaded.FirstCPStr := EmptyString;
          Loaded.LastCPStr := EmptyString; Loaded.Category := "Lu";
          Loaded.MajorCategory := "L"%char; Loaded.MinorCategory := "u"%char;
          Loaded.Codepoint_ := 0x41 |}] = inl tbl /\
    Z.of_nat (List.length tbl) = Z.min 0x5B 0x110000 - 0x41 /\
    forall c, 0x41 <= c < Z.min 0x5B 0x110000 ->
      nth_error tbl (Z.to_nat (c - 0x41)) =
      Some {| Codepoint_ := c;
              MajorCategory :=
                fst (loaded_categories
                  [{| Loaded.CodepointStr := "0041"; Loaded.FirstCPStr := EmptyString;
                      Loaded.LastCPStr := EmptyString; Loaded.Category := "Lu";
                      Loaded.MajorCategory := "L"%char; Loaded.MinorCategory := "u"%char;
                      Loaded.Codepoint_ := 0x41 |}] c);
              MinorCategory :=
                snd (loaded_categories
                  [{| Loaded.CodepointStr := "0041"; Loaded.FirstCPStr := EmptyString;
                      Loaded.LastCPStr := EmptyString; Loaded.Category := "Lu";
                      Loaded.MajorCategory := "L"%char; Loaded.MinorCategory := "u"%char;
                      Loaded.Codepoint_ := 0x41 |}] c) |}.
Proof.
  apply generateCode_table_contents.
  - constructor; [cbn [Loaded.Codepoint_]; lia | constructor].
  - lia.
  - lia.
Defined.

(** The generated table is a table in the sense of the scanner: scalar
    values in strictly ascending order, category bytes that are letters of
    the right case or blanks; and it is the unrestricted table, position
    equal to value, exactly when it starts at 0. *)
Theorem generateCode_table_ordered (lowCP highCP : Z)
    (loaded : list Loaded.LoadedCodepoint) :
  Forall (fun l => 0 <= Loaded.Codepoint_ l < 0x110000) loaded ->
  0 <= lowCP <= highCP -> lowCP <= 0x110000 ->
  exists tbl,
    generateCode_table lowCP highCP loaded = inl tbl /\
    ordered_table tbl /\
    Forall (fun cp => major_ok (MajorCategory cp)
                      /\ minor_ok (MinorCategory cp)) tbl /\
    (lowCP = 0 -> unrestricted_table tbl) /\
    (tbl <> [] -> unrestricted_table tbl -> lowCP = 0).
Proof.
  intros Hall Hbounds Hlow.
  destruct (generateCode_table_account lowCP highCP loaded Hall Hbounds Hlow)
    as (tbl & Hgen & Hlen & Hget).
  exists tbl. split; [exact Hgen|].
  assert (Hscalar : Forall (fun cp => scalar (Codepoint_ cp)) tbl).
  { apply Forall_forall. intros cp Hin. apply In_nth_error in Hin.
    destruct Hin as [i Hi]. destruct (Hget i cp Hi) as [Hc _].
    assert ((i < List.length tbl)%nat) by (apply nth_error_Some; congruence).
    unfold scalar. lia. }
  assert (Hshift : forall k,
            (forall i cp, nth_error tbl i = Some cp ->
                          Codepoint_ cp = k + Z.of_nat i) ->
            StronglySorted (fun a b => Codepoint_ a < Codepoint_ b) tbl).
  { clear. induction tbl as [|x l IH]; intros k Hk; constructor.
    - apply (IH (k + 1)). intros i cp Hn. rewrite (Hk (S i) cp Hn). lia.
    - apply Forall_forall. intros y Hy. apply In_nth_error in Hy.
      destruct Hy as [j Hj]. rewrite (Hk (S j) y Hj), (Hk O x eq_refl). lia. }
  split; [|split; [|split]].
  - split; [exact Hscalar|]. apply (Hshift lowCP).
    intros i cp Hi. apply (Hget i cp Hi).
  - apply Forall_forall. intros cp Hin. apply In_nth_error in Hin.
    destruct Hin as [i Hi]. destruct (Hget i cp Hi) as [_ Hcat].
    unfold loaded_categories in Hcat.
    destruct (find _ (rev loaded)) as [l|].
    + injection Hcat as -> ->.
      apply fixup_categories_ok.
    + injection Hcat as -> ->. split; left; reflexivity.
  - intros ->. split; [exact Hscalar|].
    intros i cp Hi. destruct (Hget i cp Hi) as [Hc _]. lia.
  - intros Hne [_ Hpos]. destruct tbl as [|cp tl]; [congruence|].
    pose proof (Hpos O cp eq_refl) as H0.
    destruct (Hget O cp eq_refl) as [Hc _]. simpl in *. lia.
Qed.

Lemma generateCode_table_ordered_witness :
  exists tbl,
    generateCode_table 0 1000 [] = inl tbl /\
    ordered_table tbl /\
    Forall (fun cp => major_ok (MajorCategory cp)
                      /\ minor_ok (MinorCategory cp)) tbl /\
    (0 = 0 -> unrestricted_table tbl) /\
    (tbl <> [] -> unrestricted_table tbl -> 0 = 0).
Proof.
  apply (generateCode_table_ordered 0 1000 []).
  - constructor.
  - lia.
  - lia.
Defined.

(** The upper bound of [-range] is not generated: the table holds exactly
    the codepoints [c] with [lowCP <= c < highCP] (and [c <= 0x10FFFF]).  With
    the default bounds, 0 and 0x10ffff, it has 0x10FFFF records and none for
    U+10FFFF. *)
Theorem generateCode_table_excludes_upper_bound (lowCP highCP : Z)
    (loaded : list Loaded.LoadedCodepoint) :
  Forall (fun l => 0 <= Loaded.Codepoint_ l < 0x110000) loaded ->
  0 <= lowCP <= highCP -> lowCP <= 0x110000 ->
  exists tbl,
    generateCode_table lowCP highCP loaded = inl tbl /\
    (forall c, (exists cp, In cp tbl /\ Codepoint_ cp = c) <->
               lowCP <= c < Z.min highCP 0x110000) /\
    (lowCP = 0 -> highCP = 0x10ffff ->
     Z.of_nat (List.length tbl) = 0x10FFFF /\
     forall cp, In cp tbl -> Codepoint_ cp <> 0x10FFFF).
Proof.
  intros Hall Hbounds Hlow.
  destruct (generateCode_table_account lowCP highCP loaded Hall Hbounds Hlow)
    as (tbl & Hgen & Hlen & Hget).
  exists tbl. split; [exact Hgen|].
  assert (Hiff : forall c, (exists cp, In cp tbl /\ Codepoint_ cp = c) <->
                           lowCP <= c < Z.min highCP 0x110000).
  { intros c. split.
    - intros (cp & Hin & <-). apply In_nth_error in Hin.
      destruct Hin as [i Hi]. destruct (Hget i cp Hi) as [Hc _].
      assert ((i < List.length tbl)%nat) by (apply nth_error_Some; congruence).
      lia.
    - intros Hc.
      destruct (nth_error tbl (Z.to_nat (c - lowCP))) as [cp|] eqn:E.
      + exists cp. split; [eapply nth_error_In; exact E|].
        destruct (Hget _ cp E) as [Hv _]. lia.
      + apply nth_error_None in E. lia. }
  split; [exact Hiff|].
  intros -> ->. split; [rewrite Hlen; reflexivity|].
  intros cp Hin Heq.
  assert (H : 0 <= 0x10FFFF < Z.min 0x10ffff 0x110000)
    by (apply Hiff; exists cp; split; assumption).
  lia.
Qed.

Lemma generateCode_table_excludes_upper_bound_witness :
  exists tbl,
    generateCode_table 0 0x10ffff [] = inl tbl /\
    (forall c, (exists cp, In cp tbl /\ Codepoint_ cp = c) <->
               0 <= c < Z.min 0x10ffff 0x110000) /\
    (0 = 0 -> 0x10ffff = 0x10ffff ->
     Z.of_nat (List.length tbl) = 0x10FFFF /\
     forall cp, In cp tbl -> Codepoint_ cp <> 0x10FFFF).
Proof.
  apply (generateCode_table_excludes_upper_bound 0 0x10ffff []).
  - constructor.
  - lia.
  - lia.
Defined.

Lemma generateCode_fill_app (pre post : list Loaded.LoadedCodepoint) :
  forall codepoints,
    generateCode_fill (pre ++ post) codepoints =
    match generateCode_fill pre codepoints with
    | inl filled => generateCode_fill post filled
    | inr e => inr e
    end.
Proof.
  induction pre as [|x pre IH]; intros codepoints; [reflexivity|].
  cbn [app generateCode_fill].
  destruct ((0 <=? Loaded.Codepoint_ (Loaded.fixup x))
            && (Loaded.Codepoint_ (Loaded.fixup x)
                <? Z.of_nat (List.length codepoints)));
    [apply IH | reflexivity].
Qed.

(** The panics of the table construction.  A loaded codepoint that is
    negative or above 0x10FFFF stops it with an index out of range, whatever
    follows; a lower bound above the upper bound (or above 0x110000) stops
    it with slice bounds out of range. *)
Theorem generateCode_table_panics (lowCP highCP : Z)
    (pre post : list Loaded.LoadedCodepoint) (bad : Loaded.LoadedCodepoint) :
  Forall (fun l => 0 <= Loaded.Codepoint_ l < 0x110000) pre ->
  (~ 0 <= Loaded.Codepoint_ bad < 0x110000 ->
   generateCode_table lowCP highCP (pre ++ bad :: post)
     = inr IndexOutOfRange) /\
  (0 <= highCP -> Z.min highCP 0x110000 < lowCP ->
   generateCode_table lowCP highCP pre = inr SliceBoundsOutOfRange).
Proof.
  intros Hpre.
  set (n := Z.to_nat 0x110000).
  assert (Hn : Z.of_nat n = 0x110000) by (subst n; apply Z2Nat.id; lia).
  destruct (generateCode_fill_lookup pre (placeholders n))
    as (filled & Hfill & Hlen & _).
  { rewrite length_placeholders, Hn. exact Hpre. }
  rewrite length_placeholders in Hlen.
  split.
  - intros Hbad. unfold generateCode_table. fold n.
    rewrite generateCode_fill_app, Hfill. cbn [generateCode_fill].
    rewrite fixup_Codepoint, Hlen, Hn.
    replace ((0 <=? Loaded.Codepoint_ bad)
             && (Loaded.Codepoint_ bad <? 0x110000)) with false; [reflexivity|].
    symmetry. apply andb_false_iff.
    destruct (Z.lt_ge_cases (Loaded.Codepoint_ bad) 0); [left | right]; lia.
  - intros Hhigh Hcross. unfold generateCode_table. fold n.
    rewrite Hfill, Hlen, Hn. clearbody n.
    replace (lowCP >? 0) with true by lia.
    destruct (highCP <? 0x110000) eqn:E.
    + rewrite length_firstn, Hlen.
      destruct (lowCP <=? Z.of_nat (Nat.min (Z.to_nat highCP) n)) eqn:F;
        [|reflexivity].
      exfalso. apply Z.leb_le in F. apply Z.ltb_lt in E.
      rewrite Nat2Z.inj_min, Hn, Z2Nat.id in F by exact Hhigh. lia.
    + rewrite Hlen, Hn. replace (lowCP <=? 0x110000) with false by lia.
      reflexivity.
Qed.

Lemma generateCode_table_panics_witness :
  (~ 0 <= Loaded.Codepoint_
            {| Loaded.CodepointStr := "-1"; Loaded.FirstCPStr := EmptyString;
               Loaded.LastCPStr := EmptyString; Loaded.Category := "Cn";
               Loaded.MajorCategory := "C"%char; Loaded.MinorCategory := "n"%char;
               Loaded.Codepoint_ := -1 |} < 0x110000 ->
   generateCode_table 0x50 0x7f
     ([] ++ {| Loaded.CodepointStr := "-1"; Loaded.FirstCPStr := EmptyString;
               Loaded.LastCPStr := EmptyString; Loaded.Category := "Cn";
               Loaded.MajorCategory := "C"%char; Loaded.MinorCategory := "n"%char;
               Loaded.Codepoint_ := -1 |} :: [])
     = inr IndexOutOfRange) /\
  (0 <= 0x7f -> Z.min 0x7f 0x110000 < 0x80 ->
   generateCode_table 0x80 0x7f [] = inr SliceBoundsOutOfRange).
Proof.
  destruct (generateCode_table_panics 0x50 0x7f [] []
              {| Loaded.CodepointStr := "-1"; Loaded.FirstCPStr := EmptyString;
                 Loaded.LastCPStr := EmptyString; Loaded.Category := "Cn";
                 Loaded.MajorCategory := "C"%char; Loaded.MinorCategory := "n"%char;
                 Loaded.Codepoint_ := -1 |} (Forall_nil _)) as [Hidx _].
  destruct (generateCode_table_panics 0x80 0x7f [] []
              {| Loaded.CodepointStr := "-1"; Loaded.FirstCPStr := EmptyString;
                 Loaded.LastCPStr := EmptyString; Loaded.Category := "Cn";
                 Loaded.MajorCategory := "C"%char; Loaded.MinorCategory := "n"%char;
                 Loaded.Codepoint_ := -1 |} (Forall_nil _)) as [_ Hslice].
  split; assumption.
Defined.

(** Scanning a table generated for a sub-range.  When the table starts at
    [lowCP > 0], its first record holds codepoint [lowCP], and still a query
    that selects every record reports the one range from 0 to the last
    codepoint of the table: [Begin] is a position, [End] a codepoint. *)
Theorem query_on_subrange_table (lowCP highCP : Z)
    (loaded : list Loaded.LoadedCodepoint) :
  Forall (fun l => 0 <= Loaded.Codepoint_ l < 0x110000) loaded ->
  0 < lowCP < Z.min highCP 0x110000 ->
  exists tbl first,
    generateCode_table lowCP highCP loaded = inl tbl /\
    nth_error tbl 0 = Some first /\ Codepoint_ first = lowCP /\
    forall inclusiveMatcher exclusiveMatcher,
      (forall cp, In cp tbl ->
                  selects inclusiveMatcher exclusiveMatcher cp = true) ->
      query tbl inclusiveMatcher exclusiveMatcher =
      Returned [{| Begin := 0; End := Z.min highCP 0x110000 - 1 |}].
Proof.
  intros Hall Hbounds.
  destruct (generateCode_table_account lowCP highCP loaded Hall)
    as (tbl & Hgen & Hlen & Hget); [lia | lia |].
  destruct tbl as [|first tl] eqn:Et; [simpl in Hlen; lia|]. rewrite <- Et in *.
  exists tbl, first. split; [exact Hgen|].
  assert (H0 : nth_error tbl 0 = Some first) by (rewrite Et; reflexivity).
  split; [exact H0|]. split; [destruct (Hget O first H0); lia|].
  intros incl excl Hsel. unfold query.
  rewrite (loop_all_selected incl excl tbl Hsel 0%nat Scanner.init)
    by (rewrite Et; discriminate).
  cbn [Scanner.inRange Scanner.startRange Scanner.ranges Scanner.init].
  destruct (last_entry_some tbl) as [lastcp Hlast]; [rewrite Et; discriminate|].
  rewrite Hlast. unfold last_entry in Hlast.
  destruct (Hget _ lastcp Hlast) as [Hc _].
  assert (Hpos : (0 < List.length tbl)%nat) by (rewrite Et; simpl; lia).
  replace (Codepoint_ lastcp) with (Z.min highCP 0x110000 - 1) by lia.
  reflexivity.
Qed.

Lemma query_on_subrange_table_witness :
  exists tbl first,
    generateCode_table 0x41 0x5B [] = inl tbl /\
    nth_error tbl 0 = Some first /\ Codepoint_ first = 0x41 /\
    forall inclusiveMatcher exclusiveMatcher,
      (forall cp, In cp tbl ->
                  selects inclusiveMatcher exclusiveMatcher cp = true) ->
      query tbl inclusiveMatcher exclusiveMatcher =
      Returned [{| Begin := 0; End := Z.min 0x5B 0x110000 - 1 |}].
Proof.
  apply (query_on_subrange_table 0x41 0x5B []).
  - constructor.
  - lia.
Defined.

(* ================================================================== *)
(** * [LoadedCodepoint.All] *)

Lemma to_rune_is_rune (x : Z) : is_rune (to_rune x).
Proof.
  unfold is_rune, to_rune.
  pose proof (Z.mod_pos_bound (x + 2 ^ 31) (2 ^ 32) ltac:(lia)). lia.
Qed.

Lemma ParseUint_bound (s : string) (un : Z) :
  strconv.ParseUint s = inl un -> 0 <= un <= 2 ^ 32 - 1.
Proof.
  unfold strconv.ParseUint. destruct s as [|c s]; [discriminate|].
  intros H. eapply ParseUint_loop_bound; [|exact H]. lia.
Qed.

Lemma ParseInt_rune (s : string) (n : Z) :
  ParseInt s = inl n -> is_rune n.
Proof.
  unfold ParseInt. destruct s as [|c0 rest]; [discriminate|].
  destruct (strconv.ParseUint _) as [un|err] eqn:Hu.
  - apply ParseUint_bound in Hu.
    destruct (Ascii.eqb c0 "-"%char); cbn [negb andb].
    + destruct (un >? 2 ^ 31) eqn:E; [discriminate|].
      intros H. injection H as <-. unfold is_rune. lia.
    + destruct (un >=? 2 ^ 31) eqn:E; [discriminate|].
      intros H. injection H as <-. unfold is_rune. lia.
  - destruct (Err err); discriminate.
Qed.

Lemma All_loop_done (fuel : nat) (_this : Loaded.LoadedCodepoint)
    (i lastCP : Z) (result : list Loaded.LoadedCodepoint) :
  lastCP < i -> Loaded.All_loop fuel _this i lastCP result = Some result.
Proof.
  intros H. destruct fuel; cbn [Loaded.All_loop];
    replace (i <=? lastCP) with false by lia; reflexivity.
Qed.

Lemma All_loop_range (_this : Loaded.LoadedCodepoint) (n : nat) :
  forall fuel i lastCP result,
    - 2 ^ 31 <= i -> lastCP < 2 ^ 31 - 1 ->
    Z.of_nat n = lastCP - i + 1 -> (n <= fuel)%nat ->
    Loaded.All_loop fuel _this i lastCP result =
    Some (result ++ map (fun k => Loaded.expanded _this (i + Z.of_nat k))
                        (seq 0 n)).
Proof.
  induction n as [|n IH]; intros fuel i lastCP result Hi Hlast Hn Hfuel.
  - rewrite All_loop_done by lia. simpl. rewrite app_nil_r. reflexivity.
  - destruct fuel as [|fuel]; [lia|]. cbn [Loaded.All_loop].
    replace (i <=? lastCP) with true by lia.
    rewrite to_rune_small by (unfold is_rune; lia).
    rewrite (IH fuel (i + 1) lastCP) by lia.
    rewrite <- app_assoc. apply f_equal. apply (f_equal (app result)).
    cbn [seq map app].
    replace (i + Z.of_nat 0) with i by lia.
    rewrite <- seq_shift, map_map.
    apply (f_equal (cons (Loaded.expanded _this i))).
    apply map_ext. intros k. apply (f_equal (Loaded.expanded _this)). lia.
Qed.

(** A [reserved] element with a category and bounds that parse, the last one
    below the largest [rune], is expanded into one record per codepoint from
    the first to the last, in ascending order, each with the category of the
    element and its two letters; a last bound below the first gives none. *)
Theorem All_expands_range (fuel : nat) (_this : Loaded.LoadedCodepoint)
    (major : ascii) (more : string) (firstCP lastCP : Z) :
  Loaded.Category _this = String major more ->
  Loaded.CodepointStr _this = EmptyString ->
  ParseInt (Loaded.FirstCPStr _this) = inl firstCP ->
  ParseInt (Loaded.LastCPStr _this) = inl lastCP ->
  lastCP < 2 ^ 31 - 1 ->
  (Z.to_nat (lastCP - firstCP + 1) <= fuel)%nat ->
  exists after result,
    Loaded.All fuel _this = Some (Returned (after, result)) /\
    map Loaded.Codepoint_ result =
      map (fun k => firstCP + Z.of_nat k)
          (seq 0 (Z.to_nat (lastCP - firstCP + 1))) /\
    Forall (fun r =>
              Loaded.Category r = Loaded.Category _this /\
              Loaded.MajorCategory r = major /\
              Loaded.MinorCategory r =
                match more with
                | String minor _ => minor
                | EmptyString => Loaded.MinorCategory _this
                end) result.
Proof.
  intros Hcat Hcp Hfirst Hlast Hmax Hfuel.
  pose proof (ParseInt_rune _ _ Hfirst) as Hrf.
  pose proof (ParseInt_rune _ _ Hlast) as Hrl.
  unfold Loaded.All. rewrite Hcat.
  cbn [Loaded.CodepointStr Loaded.FirstCPStr Loaded.LastCPStr].
  rewrite Hcp. cbn [String.eqb negb]. rewrite Hfirst, Hlast.
  rewrite !to_rune_small by assumption.
  unfold is_rune in *.
  destruct (Z.le_gt_cases firstCP (lastCP + 1)) as [Hle | Hgt].
  - rewrite (All_loop_range _ (Z.to_nat (lastCP - firstCP + 1))) by lia.
    eexists. eexists. split; [reflexivity|]. split.
    + cbn [app]. rewrite map_map. reflexivity.
    + cbn [app]. apply Forall_forall. intros r Hr.
      apply in_map_iff in Hr. destruct Hr as (k & <- & _).
      repeat split.
  - rewrite All_loop_done by lia.
    replace (Z.to_nat (lastCP - firstCP + 1)) with O by lia.
    eexists. eexists. split; [reflexivity|]. split; [reflexivity | constructor].
Qed.

Lemma All_expands_range_witness :
  exists after result,
    Loaded.All 3
      {| Loaded.CodepointStr := EmptyString; Loaded.FirstCPStr := "0378";
         Loaded.LastCPStr := "0379"; Loaded.Category := "Cn";
         Loaded.MajorCategory := "000"%char; Loaded.MinorCategory := "000"%char;
         Loaded.Codepoint_ := 0 |} = Some (Returned (after, result)) /\
    map Loaded.Codepoint_ result =
      map (fun k => 0x378 + Z.of_nat k) (seq 0 (Z.to_nat (0x379 - 0x378 + 1))) /\
    Forall (fun r =>
              Loaded.Category r = "Cn" /\
              Loaded.MajorCategory r = "C"%char /\
              Loaded.MinorCategory r = "n"%char) result.
Proof.
  apply (All_expands_range 3
           {| Loaded.CodepointStr := EmptyString; Loaded.FirstCPStr := "0378";
              Loaded.LastCPStr := "0379"; Loaded.Category := "Cn";
              Loaded.MajorCategory := "000"%char; Loaded.MinorCategory := "000"%char;
              Loaded.Codepoint_ := 0 |} "C"%char "n" 0x378 0x379);
    try reflexivity.
  vm_compute. lia.
Defined.

Lemma All_loop_max_rune (_this : Loaded.LoadedCodepoint) (fuel : nat) :
  forall i result,
    is_rune i ->
    Loaded.All_loop fuel _this i (2 ^ 31 - 1) result = None.
Proof.
  induction fuel as [|fuel IH]; intros i result Hi; cbn [Loaded.All_loop];
    (replace (i <=? 2 ^ 31 - 1) with true by (unfold is_rune in Hi; lia)).
  - reflexivity.
  - apply IH. apply to_rune_is_rune.
Qed.

(** A [reserved] element whose last bound is the largest [rune], 7fffffff,
    makes the loop of [All] run for ever: the counter, an [int32], wraps
    before it can exceed the bound. *)
Theorem All_never_ends_at_max_rune (_this : Loaded.LoadedCodepoint)
    (firstCP : Z) :
  Loaded.Category _this <> EmptyString ->
  Loaded.CodepointStr _this = EmptyString ->
  ParseInt (Loaded.FirstCPStr _this) = inl firstCP ->
  ParseInt (Loaded.LastCPStr _this) = inl (2 ^ 31 - 1) ->
  forall fuel, Loaded.All fuel _this = None.
Proof.
  intros Hcat Hcp Hfirst Hlast fuel.
  unfold Loaded.All.
  destruct (Loaded.Category _this) as [|major more]; [congruence|].
  cbn [Loaded.CodepointStr Loaded.FirstCPStr Loaded.LastCPStr].
  rewrite Hcp. cbn [String.eqb negb]. rewrite Hfirst, Hlast.
  rewrite (to_rune_small (2 ^ 31 - 1)) by (unfold is_rune; lia).
  rewrite All_loop_max_rune by apply to_rune_is_rune. reflexivity.
Qed.

Lemma All_never_ends_at_max_rune_witness :
  Loaded.All 1000
    {| Loaded.CodepointStr := EmptyString; Loaded.FirstCPStr := "7ffffff0";
       Loaded.LastCPStr := "7fffffff"; Loaded.Category := "Cn";
       Loaded.MajorCategory := "000"%char; Loaded.MinorCategory := "000"%char;
       Loaded.Codepoint_ := 0 |} = None.
Proof.
  apply (All_never_ends_at_max_rune _ 0x7ffffff0);
    try reflexivity; discriminate.
Defined.
